(** * Dude-Bot-Dash: the per-guild music queue manager

    A shallow embedding of [src/server/music/MusicManager.ts] (class
    [MusicManager]), of the queue data model of [shared/types.ts] and of the
    [/play] command handler of the command front-end, followed by the
    properties of the queue state machine.

    Conventions.
    - [this.connections] and [this.queues] are JavaScript [Map]s keyed by the
      guild id: finite maps [gmap string _].
    - A TypeScript [number] that the program only uses as an integer
      (volume, index, duration) is a [Z].
    - An [async] method is modelled at the point where its awaited calls have
      settled; what the outside world answered (search results, the Spotify
      lookup, whether the voice connection became ready, the values of
      [Math.random()]) is an explicit argument.
    - [throw]/[try ... catch] is an error monad ([outcome]).
    - The audio player of [@discordjs/voice] is outside the repository. The
      three listeners that [joinChannel] registers on it are functions of the
      manager state ([onPlaying], [onPaused], [onIdle]); the delivery of a
      status change is a step of its own ([Emit]). *)

From stdpp Require Import gmap strings list fin_maps pretty.
From Stdlib Require Import Ascii ZArith QArith Qround Permutation.

Local Open Scope string_scope.
Local Open Scope list_scope.
Local Open Scope Z_scope.

(** ** Data model ([shared/types.ts]) *)

Module Types.

Record Requester := {
  requester_id : string;
  requester_username : string;
  requester_avatar : option string
}.

Inductive TrackSource := youtube | spotify_source | demo.

Record Track := {
  track_id : string;
  title : string;
  duration : Z;
  thumbnail : option string;
  url : string;
  requester : Requester;
  source : TrackSource
}.

Inductive LoopMode := loop_none | loop_track | loop_queue.

Record Queue := {
  tracks : list Track;
  currentTrack : option Track;
  isPlaying : bool;
  isPaused : bool;
  volume : Z;
  loop : LoopMode;
  shuffle : bool
}.

(** Field updates, one per assignment form of the source. *)
Definition set_tracks (ts : list Track) (q : Queue) : Queue :=
  {| tracks := ts; currentTrack := currentTrack q; isPlaying := isPlaying q;
     isPaused := isPaused q; volume := volume q; loop := loop q;
     shuffle := shuffle q |}.

Definition set_currentTrack (c : option Track) (q : Queue) : Queue :=
  {| tracks := tracks q; currentTrack := c; isPlaying := isPlaying q;
     isPaused := isPaused q; volume := volume q; loop := loop q;
     shuffle := shuffle q |}.

Definition set_isPlaying (b : bool) (q : Queue) : Queue :=
  {| tracks := tracks q; currentTrack := currentTrack q; isPlaying := b;
     isPaused := isPaused q; volume := volume q; loop := loop q;
     shuffle := shuffle q |}.

Definition set_isPaused (b : bool) (q : Queue) : Queue :=
  {| tracks := tracks q; currentTrack := currentTrack q;
     isPlaying := isPlaying q; isPaused := b; volume := volume q;
     loop := loop q; shuffle := shuffle q |}.

Definition set_volume (v : Z) (q : Queue) : Queue :=
  {| tracks := tracks q; currentTrack := currentTrack q;
     isPlaying := isPlaying q; isPaused := isPaused q; volume := v;
     loop := loop q; shuffle := shuffle q |}.

Definition set_shuffle (b : bool) (q : Queue) : Queue :=
  {| tracks := tracks q; currentTrack := currentTrack q;
     isPlaying := isPlaying q; isPaused := isPaused q; volume := volume q;
     loop := loop q; shuffle := b |}.

(** The object literal of [joinChannel] for a guild without a queue. *)
Definition fresh_queue : Queue :=
  {| tracks := []; currentTrack := None; isPlaying := false;
     isPaused := false; volume := 100; loop := loop_none; shuffle := false |}.

End Types.
Import Types.

(** ** Discord and voice objects

    Only the fields the program reads are kept. A voice connection and an
    audio player are objects of [@discordjs/voice]; they are represented by
    the handle the library returned. *)

Record Guild := { guild_id : string; guild_name : string }.

Record VoiceChannel := {
  channel_id : string;
  channel_name : string;
  guild : Guild
}.

Record TextChannel := { text_channel_id : string }.

Definition VoiceConnection := nat.
Definition AudioPlayer := nat.

Record GuildConnection := {
  connection : VoiceConnection;
  player : AudioPlayer;
  voiceChannel : VoiceChannel;
  textChannel : option TextChannel
}.

(** The statuses of an audio player ([AudioPlayerStatus] of
    [@discordjs/voice]); the program listens to three of them. *)
Inductive AudioPlayerStatus :=
  | Idle | Buffering | Playing | Paused | AutoPaused.

#[global] Instance AudioPlayerStatus_eq_dec : EqDecision AudioPlayerStatus.
Proof. solve_decision. Defined.

(** ** The providers *)

(** A search hit of [play-dl]. The source reads [id] and [title] with a
    non-null assertion, so they are present here. *)
Record YouTubeVideo := {
  video_id : string;
  video_title : string;
  durationInSec : Z;
  thumbnails : list string;
  video_url : string
}.

(** The body of a Spotify track lookup: [artists[k].name], [name],
    [duration_ms], [album.images[k].url]. *)
Record SpotifyTrack := {
  artists : list string;
  spotify_name : string;
  duration_ms : Z;
  album_images : list string
}.

(** ** Exceptions *)

Inductive outcome (A : Type) :=
  | Ok (a : A)
  | Throw (message : string).
Arguments Ok {A} a.
Arguments Throw {A} message.

#[global] Instance outcome_ret : MRet outcome := λ A a, Ok a.
#[global] Instance outcome_bind : MBind outcome := λ A B k x,
  match x with
  | Ok a => k a
  | Throw e => Throw e
  end.

(** [play-dl], seen from the manager: [search(q, {limit: 1})] resolves to a
    list of videos or rejects; [stream(url, ...)] resolves or rejects. *)
Record PlayDl := {
  search : string → outcome (list YouTubeVideo);
  stream : string → bool
}.

(** [SpotifyWebApi#getTrack]. *)
Record SpotifyWebApi := {
  getTrack : string → outcome SpotifyTrack
}.

(** What [@discordjs/voice] answers during one [joinChannel]. *)
Record VoiceLib := {
  joinVoiceChannel : string → string → VoiceConnection;
  createAudioPlayer : AudioPlayer;
  entersState_Ready : VoiceConnection → bool
}.

(** ** The manager *)

Record MusicManager := {
  connections : gmap string GuildConnection;
  queues : gmap string Queue;
  spotify : option SpotifyWebApi
}.

Definition set_connections (c : gmap string GuildConnection)
    (m : MusicManager) : MusicManager :=
  {| connections := c; queues := queues m; spotify := spotify m |}.

Definition set_queues (qs : gmap string Queue) (m : MusicManager)
    : MusicManager :=
  {| connections := connections m; queues := qs; spotify := spotify m |}.

(** [new MusicManager(client)]: both maps empty; [initializeSpotify] leaves
    [spotify] undefined unless both credentials are in the environment. *)
Definition new_MusicManager (api : option SpotifyWebApi) : MusicManager :=
  {| connections := ∅; queues := ∅; spotify := api |}.

(** ** Query classification *)

(** [/^(https?:\/\/)?(www\.)?(youtube\.com|youtu\.be)/]: the strings the
    anchored pattern can match, one per choice of the optional groups. *)
Definition youtube_prefixes : list string :=
  scheme ← [""; "http://"; "https://"];
  www ← [""; "www."];
  host ← ["youtube.com"; "youtu.be"];
  [scheme +:+ www +:+ host].

Definition isYouTubeUrl (url : string) : bool :=
  existsb (λ p, String.prefix p url) youtube_prefixes.

(** [/^https?:\/\/open\.spotify\.com\/track\//] *)
Definition isSpotifyUrl (url : string) : bool :=
  String.prefix "http://open.spotify.com/track/" url
  || String.prefix "https://open.spotify.com/track/" url.

(** The character class [[a-zA-Z0-9]]. *)
Definition is_alnum (c : ascii) : bool :=
  let n := nat_of_ascii c in
  ((97 <=? n) && (n <=? 122) || (65 <=? n) && (n <=? 90)
   || (48 <=? n) && (n <=? 57))%nat.

(** The longest run of [[a-zA-Z0-9]] at the start of [s] (the greedy [+]). *)
Fixpoint take_alnum (s : string) : string :=
  match s with
  | String c r => if is_alnum c then String c (take_alnum r) else ""
  | EmptyString => ""
  end.

Fixpoint strip_prefix (p s : string) : option string :=
  match p, s with
  | EmptyString, _ => Some s
  | String a p', String b s' =>
      if decide (a = b) then strip_prefix p' s' else None
  | String _ _, EmptyString => None
  end.

(** [/track\/([a-zA-Z0-9]+)/] tried at the start of [s]: the capture. *)
Definition track_id_here (s : string) : option string :=
  match strip_prefix "track/" s with
  | Some rest =>
      let id := take_alnum rest in
      if decide (id = "") then None else Some id
  | None => None
  end.

(** [url.match(/track\/([a-zA-Z0-9]+)/)]: the leftmost match. *)
Fixpoint extractSpotifyTrackId (url : string) : option string :=
  match track_id_here url with
  | Some id => Some id
  | None =>
      match url with
      | String _ r => extractSpotifyTrackId r
      | EmptyString => None
      end
  end.

(** ** Track resolution *)

(** [n || 0] on a number that is an integer. *)
Definition or_zero (n : Z) : Z := if decide (n = 0) then 0 else n.

(** The object literal shared by [getYouTubeTrack] and [searchYouTube]. *)
Definition youtube_track (video : YouTubeVideo) (r : Requester) : Track :=
  {| track_id := video_id video;
     title := video_title video;
     duration := or_zero (durationInSec video);
     thumbnail := head (thumbnails video);
     url := video_url video;
     requester := r;
     source := youtube |}.

Definition getYouTubeTrack (dl : PlayDl) (url : string) (r : Requester)
    : outcome Track :=
  info ← search dl url;
  match info with
  | [] => Throw "No video found"
  | video :: _ => Ok (youtube_track video r)
  end.

Definition searchYouTube (dl : PlayDl) (query : string) (r : Requester)
    : outcome Track :=
  results ← search dl query;
  match results with
  | [] => Throw "No results found"
  | video :: _ => Ok (youtube_track video r)
  end.

Definition getSpotifyTrack (api : option SpotifyWebApi) (dl : PlayDl)
    (url : string) (r : Requester) : outcome Track :=
  match api with
  | None => Throw "Spotify not configured"
  | Some sp =>
      match extractSpotifyTrackId url with
      | None => Throw "Invalid Spotify URL"
      | Some trackId =>
          track ← getTrack sp trackId;
          match artists track with
          | [] => Throw "TypeError: Cannot read properties of undefined"
          | artist :: _ =>
              let searchQuery := artist +:+ " " +:+ spotify_name track in
              youtubeResults ← search dl searchQuery;
              match youtubeResults with
              | [] => Throw "No YouTube equivalent found"
              | video :: _ =>
                  Ok {| track_id := video_id video;
                        title := artist +:+ " - " +:+ spotify_name track;
                        duration := duration_ms track `div` 1000;
                        thumbnail := head (album_images track);
                        url := video_url video;
                        requester := r;
                        source := spotify_source |}
              end
          end
      end
  end.

(** The dispatch at the head of [addTrack]. *)
Definition resolve (api : option SpotifyWebApi) (dl : PlayDl)
    (query : string) (r : Requester) : outcome Track :=
  if isYouTubeUrl query then getYouTubeTrack dl query r
  else if isSpotifyUrl query then getSpotifyTrack api dl query r
  else searchYouTube dl query r.

(** ** The listeners on the audio player

    [joinChannel] registers them with [player.on(...)]; each closes over the
    guild id of the joined channel. [this.queues.get(id)!] is a property
    access on [undefined] when the guild has no queue. *)

Definition no_queue : string :=
  "TypeError: Cannot set properties of undefined".

(** [AudioPlayerStatus.Playing] *)
Definition onPlaying (guildId : string) (m : MusicManager)
    : outcome MusicManager :=
  match queues m !! guildId with
  | None => Throw no_queue
  | Some queue =>
      let queue := set_isPlaying true queue in
      let queue := set_isPaused false queue in
      Ok (set_queues (<[guildId := queue]> (queues m)) m)
  end.

(** [AudioPlayerStatus.Paused] *)
Definition onPaused (guildId : string) (m : MusicManager)
    : outcome MusicManager :=
  match queues m !! guildId with
  | None => Throw no_queue
  | Some queue =>
      let queue := set_isPaused true queue in
      Ok (set_queues (<[guildId := queue]> (queues m)) m)
  end.

(** [play]: the stream of the current track is handed to the player. The
    manager state is only read. *)
Definition play (dl : PlayDl) (guildId : string) (m : MusicManager) : bool :=
  match connections m !! guildId, queues m !! guildId with
  | Some _, Some queue =>
      match currentTrack queue with
      | Some current => stream dl (url current)
      | None => false
      end
  | _, _ => false
  end.

(** [playNext]: [tracks.shift()] becomes the current track; the awaited
    [play] that follows does not write to the manager. *)
Definition playNext (guildId : string) (m : MusicManager) : MusicManager :=
  match queues m !! guildId with
  | None => m
  | Some queue =>
      match tracks queue with
      | [] => m
      | nextTrack :: rest =>
          let queue := set_tracks rest queue in
          let queue := set_currentTrack (Some nextTrack) queue in
          set_queues (<[guildId := queue]> (queues m)) m
      end
  end.

(** [AudioPlayerStatus.Idle] *)
Definition onIdle (guildId : string) (m : MusicManager)
    : outcome MusicManager :=
  match queues m !! guildId with
  | None => Throw no_queue
  | Some queue =>
      let queue := set_isPlaying false queue in
      let queue := set_isPaused false queue in
      let m := set_queues (<[guildId := queue]> (queues m)) m in
      Ok (playNext guildId m)
  end.

(** ** The public operations *)

Definition joinChannel (voice : VoiceLib) (vc : VoiceChannel)
    (tc : option TextChannel) (m : MusicManager) : bool * MusicManager :=
  let guildId := guild_id (guild vc) in
  let conn := joinVoiceChannel voice (channel_id vc) guildId in
  let plr := createAudioPlayer voice in
  if entersState_Ready voice conn then
    let m :=
      set_connections
        (<[guildId := {| connection := conn; player := plr;
                         voiceChannel := vc; textChannel := tc |}]>
           (connections m)) m in
    let m :=
      match queues m !! guildId with
      | Some _ => m
      | None => set_queues (<[guildId := fresh_queue]> (queues m)) m
      end in
    (true, m)
  else (false, m).

Definition addTrack (dl : PlayDl) (guildId query : string) (r : Requester)
    (m : MusicManager) : option Track * MusicManager :=
  match resolve (spotify m) dl query r with
  | Throw _ => (None, m)
  | Ok track =>
      match queues m !! guildId with
      | Some queue =>
          let queue := set_tracks (tracks queue ++ [track]) queue in
          let m := set_queues (<[guildId := queue]> (queues m)) m in
          if negb (isPlaying queue)
             && negb (bool_decide (is_Some (currentTrack queue)))
          then (Some track, playNext guildId m)
          else (Some track, m)
      | None => (Some track, m)
      end
  end.

Definition pause (guildId : string) (m : MusicManager) : bool :=
  bool_decide (is_Some (connections m !! guildId)).

Definition resume (guildId : string) (m : MusicManager) : bool :=
  bool_decide (is_Some (connections m !! guildId)).

Definition skip (guildId : string) (m : MusicManager) : bool :=
  bool_decide (is_Some (connections m !! guildId)).

Definition stop (guildId : string) (m : MusicManager) : bool * MusicManager :=
  match connections m !! guildId, queues m !! guildId with
  | Some _, Some queue =>
      let queue := set_tracks [] queue in
      let queue := set_currentTrack None queue in
      (true, set_queues (<[guildId := queue]> (queues m)) m)
  | _, _ => (false, m)
  end.

(** [[a[i], a[j]] = [a[j], a[i]]]: first [a[i]] is written, then [a[j]].
    Both indices are below the length wherever [shuffle] swaps
    ([random_index_bound]). *)
Definition swap (a : list Track) (i j : nat) : list Track :=
  match a !! i, a !! j with
  | Some x, Some y => <[j := x]> (<[i := y]> a)
  | _, _ => a
  end.

(** [Math.floor(r * (i + 1))] for [r] a value of [Math.random()]. The
    product is taken exactly; the source rounds it to a double first, which
    for some values of [r] gives the next index. Either way the index is at
    most [i]. *)
Definition random_index (r : Q) (i : nat) : nat :=
  Z.to_nat (Qfloor (r * inject_Z (Z.of_nat i + 1))).

(** [for (let i = length - 1; i > 0; i--)]: [random n] is the value of the
    [n]-th call of [Math.random()]. *)
Fixpoint fisher_yates (random : nat → Q) (n i : nat) (a : list Track)
    : list Track :=
  match i with
  | O => a
  | S i' => fisher_yates random (S n) i' (swap a i (random_index (random n) i))
  end.

Definition shuffle (random : nat → Q) (guildId : string) (m : MusicManager)
    : bool * MusicManager :=
  match queues m !! guildId with
  | None => (false, m)
  | Some queue =>
      let queue := set_shuffle (negb (Types.shuffle queue)) queue in
      let queue :=
        if Types.shuffle queue && (1 <? length (tracks queue))%nat
        then set_tracks
               (fisher_yates random 0 (length (tracks queue) - 1)
                  (tracks queue)) queue
        else queue in
      (true, set_queues (<[guildId := queue]> (queues m)) m)
  end.

Definition setVolume (guildId : string) (v : Z) (m : MusicManager)
    : bool * MusicManager :=
  match queues m !! guildId with
  | None => (false, m)
  | Some queue =>
      let queue := set_volume (Z.max 0 (Z.min 100 v)) queue in
      (true, set_queues (<[guildId := queue]> (queues m)) m)
  end.

(** [tracks.splice(index, 1)] with [0 <= index < length]. *)
Definition removeTrack (guildId : string) (index : Z) (m : MusicManager)
    : bool * MusicManager :=
  match queues m !! guildId with
  | None => (false, m)
  | Some queue =>
      if ((index <? 0) || (Z.of_nat (length (tracks queue)) <=? index))%Z
      then (false, m)
      else
        let queue := set_tracks (delete (Z.to_nat index) (tracks queue)) queue in
        (true, set_queues (<[guildId := queue]> (queues m)) m)
  end.

Definition getQueue (guildId : string) (m : MusicManager) : option Queue :=
  queues m !! guildId.

Definition getConnection (guildId : string) (m : MusicManager)
    : option GuildConnection :=
  connections m !! guildId.

Definition getActiveConnections (m : MusicManager) : nat :=
  size (connections m).

Definition getTotalTracks (m : MusicManager) : nat :=
  map_fold (λ _ queue total, (total + length (tracks queue))%nat) 0%nat
    (queues m).

Definition disconnect (guildId : string) (m : MusicManager)
    : bool * MusicManager :=
  match connections m !! guildId with
  | None => (false, m)
  | Some _ =>
      (true, {| connections := delete guildId (connections m);
                queues := delete guildId (queues m);
                spotify := spotify m |})
  end.

(** [cleanup(guildId?)]: the empty string is falsy, like a missing
    argument. *)
Definition cleanup (guildId : option string) (m : MusicManager)
    : MusicManager :=
  match guildId with
  | Some g =>
      if decide (g = "") then
        foldl (λ m' kv, (disconnect kv.1 m').2) m (map_to_list (connections m))
      else (disconnect g m).2
  | None =>
      foldl (λ m' kv, (disconnect kv.1 m').2) m (map_to_list (connections m))
  end.

(** ** The [/play] command ([handlePlayCommand])

    The command front-end is the only caller of [joinChannel]. The replies
    are the messages the handler sends; the queue broadcast that follows a
    successful command reads the manager and is left out. *)

Record Interaction := {
  interaction_guildId : string;
  option_query : string;
  user : Requester;
  member_voice_channel : option VoiceChannel
}.

Inductive Reply :=
  | NeedVoiceChannel          (* You need to be in a voice channel *)
  | DifferentVoiceChannel     (* already connected to a different channel *)
  | JoinFailed                (* Failed to join the voice channel *)
  | TrackNotAdded             (* Could not find or add the requested track *)
  | TrackAdded (track : Track) (position : nat).

Definition handlePlayCommand (voice : VoiceLib) (dl : PlayDl)
    (interaction : Interaction) (textChannel : TextChannel)
    (m : MusicManager) : Reply * MusicManager :=
  let add (m : MusicManager) : Reply * MusicManager :=
    let '(track, m) :=
      addTrack dl (interaction_guildId interaction)
        (option_query interaction) (user interaction) m in
    match track with
    | None => (TrackNotAdded, m)
    | Some track =>
        let position :=
          match getQueue (interaction_guildId interaction) m with
          | Some queue => length (tracks queue)
          | None => 0%nat
          end in
        (TrackAdded track position, m)
    end in
  match member_voice_channel interaction with
  | None => (NeedVoiceChannel, m)
  | Some vc =>
      match getConnection (interaction_guildId interaction) m with
      | Some existingConnection =>
          if decide (channel_id (voiceChannel existingConnection)
                     ≠ channel_id vc)
          then (DifferentVoiceChannel, m)
          else add m
      | None =>
          let '(success, m) := joinChannel voice vc (Some textChannel) m in
          if success then add m else (JoinFailed, m)
      end
  end.

(** ** The manager as a transition system

    One action per public method, and [Emit g s]: a player that
    [joinChannel] created for guild [g] changes its status to [s], which runs
    the listener for [s], if there is one. *)

Inductive Action :=
  | JoinChannel (voice : VoiceLib) (vc : VoiceChannel)
                (tc : option TextChannel)
  | AddTrack (dl : PlayDl) (guildId query : string) (r : Requester)
  | Play (dl : PlayDl) (guildId : string)
  | Pause (guildId : string)
  | Resume (guildId : string)
  | Skip (guildId : string)
  | Stop (guildId : string)
  | Shuffle (random : nat → Q) (guildId : string)
  | SetVolume (guildId : string) (v : Z)
  | RemoveTrack (guildId : string) (index : Z)
  | Disconnect (guildId : string)
  | Cleanup (guildId : option string)
  | Emit (guildId : string) (status : AudioPlayerStatus).

Definition step (a : Action) (m : MusicManager) : outcome MusicManager :=
  match a with
  | JoinChannel voice vc tc => Ok (joinChannel voice vc tc m).2
  | AddTrack dl g query r => Ok (addTrack dl g query r m).2
  | Play _ _ | Pause _ | Resume _ | Skip _ => Ok m
  | Stop g => Ok (stop g m).2
  | Shuffle random g => Ok (shuffle random g m).2
  | SetVolume g v => Ok (setVolume g v m).2
  | RemoveTrack g index => Ok (removeTrack g index m).2
  | Disconnect g => Ok (disconnect g m).2
  | Cleanup g => Ok (cleanup g m)
  | Emit g Playing => onPlaying g m
  | Emit g Paused => onPaused g m
  | Emit g Idle => onIdle g m
  | Emit g (Buffering | AutoPaused) => Ok m
  end.

Fixpoint run (actions : list Action) (m : MusicManager)
    : outcome MusicManager :=
  match actions with
  | [] => Ok m
  | a :: rest => m' ← step a m; run rest m'
  end.

(** The one fact about the audio player that the flags depend on: a player
    enters [Paused] from [Playing] only ([pause()] does nothing in any other
    status), and a new player starts [Idle]. [observe] keeps the status last
    reported for each guild; [permitted] is the condition on [Emit _ Paused]. *)
Definition observe (a : Action) (st : gmap string AudioPlayerStatus)
    : gmap string AudioPlayerStatus :=
  match a with
  | JoinChannel voice vc tc =>
      let g := guild_id (guild vc) in
      if entersState_Ready voice
           (joinVoiceChannel voice (channel_id vc) g)
      then <[g := Idle]> st else st
  | Emit g s => <[g := s]> st
  | _ => st
  end.

Definition permitted (a : Action) (st : gmap string AudioPlayerStatus)
    : bool :=
  match a with
  | Emit g Paused => bool_decide (st !! g = Some Playing)
  | _ => true
  end.

Fixpoint player_protocol (st : gmap string AudioPlayerStatus)
    (actions : list Action) : bool :=
  match actions with
  | [] => true
  | a :: rest => permitted a st && player_protocol (observe a st) rest
  end.

(** ** What [skip] asks of the player

    [skip] calls [connection.player.stop()]. What the player of
    [@discordjs/voice] then reports is not in the repository: it is a
    parameter [player_stop], from the status of the player to the statuses it
    reports as a result. Two facts about it are used, as hypotheses: an idle
    player ignores [stop()] and reports nothing; a playing player ends its
    stream and reports [Idle]. *)



(** ** Concrete data used by the examples *)

Module Demo.

Definition alice : Requester :=
  {| requester_id := "1"; requester_username := "alice";
     requester_avatar := None |}.

Definition mk_track (id : string) : Track :=
  {| track_id := id; title := "title " +:+ id; duration := 180;
     thumbnail := None; url := "https://www.youtube.com/watch?v=" +:+ id;
     requester := alice; source := youtube |}.

Definition trackA : Track := mk_track "a".
Definition trackB : Track := mk_track "b".
Definition trackC : Track := mk_track "c".

Definition guild1 : Guild := {| guild_id := "g1"; guild_name := "guild" |}.

Definition channelX : VoiceChannel :=
  {| channel_id := "x"; channel_name := "X"; guild := guild1 |}.

Definition channelY : VoiceChannel :=
  {| channel_id := "y"; channel_name := "Y"; guild := guild1 |}.

Definition text1 : TextChannel := {| text_channel_id := "t" |}.

(** A search provider that finds one video for every query: the video
    whose id is the query. *)
Definition video_of (q : string) : YouTubeVideo :=
  {| video_id := q; video_title := "title " +:+ q; durationInSec := 180;
     thumbnails := [];
     video_url := "https://www.youtube.com/watch?v=" +:+ q |}.

Definition dl_any : PlayDl :=
  {| search := λ q, Ok [video_of q]; stream := λ _, true |}.

(** A search provider that finds nothing. *)
Definition dl_none : PlayDl :=
  {| search := λ _, Ok []; stream := λ _, true |}.

(** A voice library whose connections become ready. *)
Definition voice_ok (handle : nat) : VoiceLib :=
  {| joinVoiceChannel := λ _ _, handle; createAudioPlayer := handle;
     entersState_Ready := λ _, true |}.

Definition spotify_url : string :=
  "https://open.spotify.com/track/4uLU6hMCjMI75M1A2tKUQC".

(** A Spotify client that knows every track as the same song. *)
Definition spotify_up : SpotifyWebApi :=
  {| getTrack := λ _,
       Ok {| artists := ["Rick Astley"; "Someone"];
             spotify_name := "Never Gonna Give You Up";
             duration_ms := 213573;
             album_images := ["https://i.scdn.co/image/1"] |} |}.

(** A Spotify client whose lookups are rejected. *)
Definition spotify_down : SpotifyWebApi :=
  {| getTrack := λ _, Throw "WebapiError: Service Unavailable" |}.

Definition queue_of (pending : list Track) (current : option Track)
    (playing paused : bool) : Queue :=
  {| tracks := pending; currentTrack := current; isPlaying := playing;
     isPaused := paused; volume := 100; loop := loop_none;
     Types.shuffle := false |}.

Definition connX : GuildConnection :=
  {| connection := 1%nat; player := 1%nat; voiceChannel := channelX;
     textChannel := Some text1 |}.

(** A manager with one session, for guild [g1] on channel [X]. *)
Definition manager_of (q : Queue) : MusicManager :=
  {| connections := {[ "g1" := connX ]}; queues := {[ "g1" := q ]};
     spotify := None |}.

(** The session of [g1]: idle and empty; playing [trackA] with [trackB]
    and [trackC] pending. *)
Definition idle_queue : Queue := queue_of [] None false false.
Definition busy_queue : Queue :=
  queue_of [trackB; trackC] (Some trackA) true false.
Definition idle_manager : MusicManager := manager_of idle_queue.
Definition busy_manager : MusicManager := manager_of busy_queue.



(** Two guilds with a session each. *)
Definition channelZ : VoiceChannel :=
  {| channel_id := "z"; channel_name := "Z";
     guild := {| guild_id := "g2"; guild_name := "other guild" |} |}.

Definition two_guilds : MusicManager :=
  {| connections :=
       {[ "g1" := connX;
          "g2" := {| connection := 2%nat; player := 2%nat;
                     voiceChannel := channelZ; textChannel := None |} ]};
     queues := {[ "g1" := busy_queue;
                  "g2" := queue_of [trackC] (Some trackB) true false ]};
     spotify := None |}.

(** Join, request a track, hear it start, pause it. *)
Definition pause_scenario : list Action :=
  [JoinChannel (voice_ok 1) channelX (Some text1);
   AddTrack dl_any "g1" "a" alice;
   Emit "g1" Playing;
   Pause "g1";
   Emit "g1" Paused].

(** [Math.random()] returning 1/2 each time. *)
Definition half : nat → Q := λ _, (1 # 2)%Q.

End Demo.

(** ** Statements of the specification *)


(** The catalog provider is unavailable for a catalog reference: the
    manager has no Spotify client, or the lookup of the referenced track is
    rejected. *)
Definition catalog_unavailable (api : option SpotifyWebApi) (query : string)
    : Prop :=
  api = None
  ∨ ∃ sp id e,
      api = Some sp ∧ extractSpotifyTrackId query = Some id
      ∧ getTrack sp id = Throw e.

(** "If the catalog provider is unavailable, fall back to free-text search
    using the raw query." *)
Definition catalog_fallback : Prop :=
  ∀ (api : option SpotifyWebApi) (dl : PlayDl) (query : string)
    (r : Requester),
    isSpotifyUrl query = true →
    catalog_unavailable api query →
    resolve api dl query r = searchYouTube dl query r.

(** A sequence of [addTrack] calls on one guild; each call sees its own
    answers of the search provider. *)
Record Call := {
  call_dl : PlayDl;
  call_query : string;
  call_requester : Requester
}.

Definition addTracks (g : string) (calls : list Call) (m : MusicManager)
    : MusicManager :=
  foldl
    (λ m c, (addTrack (call_dl c) g (call_query c) (call_requester c) m).2)
    m calls.

(** The tracks of the calls whose resolution succeeds, in call order. *)
Definition resolved (api : option SpotifyWebApi) (calls : list Call)
    : list Track :=
  omap
    (λ c, match resolve api (call_dl c) (call_query c) (call_requester c) with
          | Ok t => Some t
          | Throw _ => None
          end)
    calls.

(** "Pending length equals the count of successful resolutions" (counted
    from the pending length before the calls). *)
Definition pending_counts_resolutions : Prop :=
  ∀ (g : string) (calls : list Call) (m : MusicManager) (q q' : Queue),
    queues m !! g = Some q →
    queues (addTracks g calls m) !! g = Some q' →
    length (tracks q')
    = (length (tracks q) + length (resolved (spotify m) calls))%nat.

(** The test of [addTrack] for "nothing is playing". *)
Definition nothing_playing (q : Queue) : bool :=
  negb (isPlaying q) && negb (bool_decide (is_Some (currentTrack q))).

(** What a successful [addTrack] does to the queue of its guild. *)
Definition enqueue (q : Queue) (t : Track) : Queue :=
  let q := set_tracks (tracks q ++ [t]) q in
  if nothing_playing q then
    match tracks q with
    | nextTrack :: rest => set_currentTrack (Some nextTrack) (set_tracks rest q)
    | [] => q
    end
  else q.


(** "[join] called twice is a no-op returning the existing session; [join]
    while bound to another channel fails with [ChannelConflict], never
    relocates", read on [joinChannel]. *)
Definition join_respects_binding : Prop :=
  ∀ (voice : VoiceLib) (vc : VoiceChannel) (tc : option TextChannel)
    (m : MusicManager) (c : GuildConnection),
    connections m !! guild_id (guild vc) = Some c →
    (channel_id (voiceChannel c) = channel_id vc →
     (joinChannel voice vc tc m).2 = m)
    ∧ (channel_id (voiceChannel c) ≠ channel_id vc →
       (joinChannel voice vc tc m).1 = false
       ∧ (joinChannel voice vc tc m).2 = m).

(** "[playing && paused] never both true": in every state the manager
    reaches with a player that keeps to its protocol, no queue is both
    playing and paused. *)
Definition flags_exclusive : Prop :=
  ∀ (api : option SpotifyWebApi) (actions : list Action) (m : MusicManager)
    (g : string) (q : Queue),
    player_protocol ∅ actions = true →
    run actions (new_MusicManager api) = Ok m →
    queues m !! g = Some q →
    ¬ (isPlaying q = true ∧ isPaused q = true).

(** The values [Math.random()] can return. *)
Definition in_unit_interval (random : nat → Q) : Prop :=
  ∀ n, (0 <= random n)%Q ∧ (random n < 1)%Q.

(** Every swap of the loop of [shuffle] stays within the array. *)
Fixpoint swaps_in_range (random : nat → Q) (n i : nat) (a : list Track)
    : Prop :=
  match i with
  | O => True
  | S i' =>
      (i < length a)%nat ∧ (random_index (random n) i ≤ i)%nat
      ∧ swaps_in_range random (S n) i' (swap a i (random_index (random n) i))
  end.

(** What enabling shuffle does to a pending sequence. *)
Definition permute (random : nat → Q) (a : list Track) : list Track :=
  if (1 <? length a)%nat
  then fisher_yates random 0 (length a - 1) a
  else a.

(** The relation between the flags and the status last reported by the
    player that every step keeps. *)
Definition flags_ok (st : gmap string AudioPlayerStatus) (m : MusicManager)
    : Prop :=
  ∀ g q, queues m !! g = Some q →
    (isPaused q = true → isPlaying q = true)
    ∧ (st !! g = Some Playing → isPlaying q = true).

(** [m'] has no queue that [m] lacks, and every queue has kept both
    flags. *)
Definition flags_preserved (m m' : MusicManager) : Prop :=
  ∀ g q', queues m' !! g = Some q' →
    ∃ q, queues m !! g = Some q
         ∧ isPlaying q' = isPlaying q ∧ isPaused q' = isPaused q.

(** Connections and queues are created and discarded together. *)
Definition sessions_ok (m : MusicManager) : Prop :=
  dom (connections m) = dom (queues m).

(** [m'] has the sessions of [m]: the same connections, and queues for the
    same guilds. *)
Definition same_sessions (m m' : MusicManager) : Prop :=
  connections m' = connections m ∧ dom (queues m') = dom (queues m).

(** ** The other slash commands ([commands/index.ts])

    Each handler reads the manager, calls one operation and answers with one
    message; the replies are those messages. The queue broadcast that follows
    a successful command reads the manager after the call on the player and
    is left out, as for [/play]. *)

Inductive PlaybackStatus := StatusPlaying | StatusPaused | StatusStopped.

Inductive CommandReply :=
  | NotConnected              (* I'm not connected to a voice channel *)
  | NothingPlaying            (* Nothing is currently playing *)
  | AlreadyPaused             (* Music is already paused *)
  | NotPaused                 (* Music is not paused *)
  | NeedTwoTracks             (* Need at least 2 tracks in queue to shuffle *)
  | CommandFailed             (* Failed to ... *)
  | TrackSkipped (skipped : string)
  | MusicPaused
  | MusicResumed
  | MusicStopped
  | ShuffleToggled (on : bool)
  | VolumeChanged (level : Z)
  | NowPlaying (track : Track) (status : PlaybackStatus) (level : Z).

Definition handleSkipCommand (guildId : string) (m : MusicManager)
    : CommandReply :=
  match getConnection guildId m with
  | None => NotConnected
  | Some _ =>
      match getQueue guildId m ≫= currentTrack with
      | None => NothingPlaying
      | Some skippedTrack =>
          if skip guildId m then TrackSkipped (title skippedTrack)
          else CommandFailed
      end
  end.

Definition handlePauseCommand (guildId : string) (m : MusicManager)
    : CommandReply :=
  match getQueue guildId m with
  | None => NothingPlaying
  | Some queue =>
      if negb (isPlaying queue) then NothingPlaying
      else if isPaused queue then AlreadyPaused
      else if pause guildId m then MusicPaused
      else CommandFailed
  end.

Definition handleResumeCommand (guildId : string) (m : MusicManager)
    : CommandReply :=
  match getQueue guildId m with
  | None => NotPaused
  | Some queue =>
      if negb (isPaused queue) then NotPaused
      else if resume guildId m then MusicResumed
      else CommandFailed
  end.

Definition handleStopCommand (guildId : string) (m : MusicManager)
    : CommandReply * MusicManager :=
  match getConnection guildId m with
  | None => (NotConnected, m)
  | Some _ =>
      let '(success, m) := stop guildId m in
      if success then (MusicStopped, m) else (CommandFailed, m)
  end.

(** The status line of [/nowplaying]. *)
Definition nowPlayingStatus (queue : Queue) : PlaybackStatus :=
  if isPlaying queue
  then if isPaused queue then StatusPaused else StatusPlaying
  else StatusStopped.

Definition handleNowPlayingCommand (guildId : string) (m : MusicManager)
    : CommandReply :=
  match getQueue guildId m with
  | None => NothingPlaying
  | Some queue =>
      match currentTrack queue with
      | None => NothingPlaying
      | Some track => NowPlaying track (nowPlayingStatus queue) (volume queue)
      end
  end.

Definition handleShuffleCommand (random : nat → Q) (guildId : string)
    (m : MusicManager) : CommandReply * MusicManager :=
  match getQueue guildId m with
  | None => (NeedTwoTracks, m)
  | Some queue =>
      if (length (tracks queue) <? 2)%nat then (NeedTwoTracks, m)
      else
        let '(success, m) := shuffle random guildId m in
        if success then
          let on :=
            match getQueue guildId m with
            | Some newQueue => Types.shuffle newQueue
            | None => false
            end in
          (ShuffleToggled on, m)
        else (CommandFailed, m)
  end.


(** ** The dashboard's socket handlers ([socket/handlers.ts]) *)

Inductive PlayerAction :=
  | action_play | action_pause | action_skip | action_stop | action_shuffle.

(** The [switch] of ['control-player']: the operation called and its
    result. *)
Definition controlPlayer (random : nat → Q) (serverId : string)
    (action : PlayerAction) (m : MusicManager) : bool * MusicManager :=
  match action with
  | action_play => (resume serverId m, m)
  | action_pause => (pause serverId m, m)
  | action_skip => (skip serverId m, m)
  | action_stop => stop serverId m
  | action_shuffle => shuffle random serverId m
  end.



(** ** Formatting ([formatDuration], [formatUptime])

    A whole number prints in decimal; [%] is the remainder that takes the
    sign of the dividend, [Math.floor(a / b)] the quotient rounded down. *)

(** [Number.MAX_SAFE_INTEGER]: up to it whole numbers, their quotients
    rounded down and their remainders are exact. *)
Definition MAX_SAFE_INTEGER : Z := 2 ^ 53 - 1.

(** [s.padStart(2, '0')] *)
Definition padStart2 (s : string) : string :=
  match s with
  | EmptyString => "00"
  | String c EmptyString => String "0" (String c EmptyString)
  | _ => s
  end.

Definition formatDuration (seconds : Z) : string :=
  let hours := seconds `div` 3600 in
  let minutes := (seconds `rem` 3600) `div` 60 in
  let secs := seconds `rem` 60 in
  if (0 <? hours)%Z then
    pretty hours +:+ ":" +:+ padStart2 (pretty minutes) +:+ ":"
    +:+ padStart2 (pretty secs)
  else pretty minutes +:+ ":" +:+ padStart2 (pretty secs).

Definition formatUptime (ms : Z) : string :=
  let seconds := ms `div` 1000 in
  let minutes := seconds `div` 60 in
  let hours := minutes `div` 60 in
  let days := hours `div` 24 in
  if (0 <? days)%Z then
    pretty days +:+ "d " +:+ pretty (hours `rem` 24) +:+ "h "
    +:+ pretty (minutes `rem` 60) +:+ "m"
  else if (0 <? hours)%Z then
    pretty hours +:+ "h " +:+ pretty (minutes `rem` 60) +:+ "m"
  else pretty minutes +:+ "m " +:+ pretty (seconds `rem` 60) +:+ "s".

(** The status label of the dashboard ([Dashboard.tsx]). *)
Definition dashboardStatus (queue : Queue) : string :=
  if isPlaying queue then "Playing"
  else if isPaused queue then "Paused"
  else "Stopped".

(** [k] completion signals in a row for one guild. *)
Definition completions (k : nat) (g : string) : list Action :=
  replicate k (Emit g Idle).

(** Strings over [[a-zA-Z0-9]], and strings that begin with such a
    character. *)
Fixpoint all_alnum (s : string) : bool :=
  match s with
  | String c r => is_alnum c && all_alnum r
  | EmptyString => true
  end.

Definition starts_alnum (s : string) : bool :=
  match s with
  | String c _ => is_alnum c
  | EmptyString => false
  end.

(** The guild an action is about; [cleanup] without a guild is about all
    of them. *)
Definition target (a : Action) : option string :=
  match a with
  | JoinChannel _ vc _ => Some (guild_id (guild vc))
  | AddTrack _ g _ _ | Play _ g | Pause g | Resume g | Skip g | Stop g
  | Shuffle _ g | SetVolume g _ | RemoveTrack g _ | Disconnect g
  | Emit g _ => Some g
  | Cleanup og => og ≫= λ g, if decide (g = "") then None else Some g
  end.

(** * Properties *)

(** ** The resolver's classification on sample queries *)

Example isYouTubeUrl_watch :
  isYouTubeUrl "https://www.youtube.com/watch?v=abc" = true.
Proof. reflexivity. Qed.

Example isYouTubeUrl_short : isYouTubeUrl "youtu.be/abc" = true.
Proof. reflexivity. Qed.

Example isYouTubeUrl_text : isYouTubeUrl "never gonna give you up" = false.
Proof. reflexivity. Qed.

Example isSpotifyUrl_track :
  isSpotifyUrl "https://open.spotify.com/track/4uLU6hMCjMI75M1A2tKUQC" = true.
Proof. reflexivity. Qed.

Example extractSpotifyTrackId_track :
  extractSpotifyTrackId "https://open.spotify.com/track/4uLU6h?si=1"
  = Some "4uLU6h".
Proof. reflexivity. Qed.

Example extractSpotifyTrackId_none :
  extractSpotifyTrackId "https://open.spotify.com/track/" = None.
Proof. reflexivity. Qed.

(** ** Basic facts *)

Lemma getQueue_set_queues (g : string) (q : Queue) (m : MusicManager) :
  getQueue g (set_queues (<[g := q]> (queues m)) m) = Some q.
Proof. unfold getQueue; simpl. apply lookup_insert_eq. Qed.

Lemma getQueue_set_queues_ne (g g' : string) (q : Queue) (m : MusicManager) :
  g ≠ g' → getQueue g' (set_queues (<[g := q]> (queues m)) m) = getQueue g' m.
Proof. intros Hne. unfold getQueue; simpl. by apply lookup_insert_ne. Qed.

Lemma set_queues_id (g : string) (q : Queue) (m : MusicManager) :
  queues m !! g = Some q → set_queues (<[g := q]> (queues m)) m = m.
Proof.
  intros Hq. destruct m as [cs qs sp]; unfold set_queues; simpl in *.
  by rewrite insert_id.
Qed.

(** ** Volume *)





(** ** Removing a pending track *)

(** C7. On a guild that has a queue, [removeTrack(index)] fails (returns
    [false]) exactly when [index] is outside [[0, pendingLength)], and then
    the manager is unchanged; in particular for [-1] and for
    [pendingLength]. When it succeeds, the pending sequence loses exactly the
    track at [index] and nothing else changes: not the current track, not
    another field, not another guild. *)
Theorem removeTrack_range (g : string) (index : Z) (m : MusicManager)
    (q : Queue) :
  queues m !! g = Some q →
  ((removeTrack g index m).1 = false
   ↔ ¬ (0 ≤ index < Z.of_nat (length (tracks q))))
  ∧ ((removeTrack g index m).1 = false → (removeTrack g index m).2 = m)
  ∧ ((removeTrack g index m).1 = true →
     (removeTrack g index m).2
     = set_queues
         (<[g := set_tracks (take (Z.to_nat index) (tracks q)
                             ++ drop (S (Z.to_nat index)) (tracks q)) q]>
            (queues m)) m
     ∧ currentTrack
         (set_tracks (take (Z.to_nat index) (tracks q)
                      ++ drop (S (Z.to_nat index)) (tracks q)) q)
       = currentTrack q
     ∧ (length (take (Z.to_nat index) (tracks q)
                ++ drop (S (Z.to_nat index)) (tracks q)) + 1
        = length (tracks q))%nat)
  ∧ removeTrack g (-1) m = (false, m)
  ∧ removeTrack g (Z.of_nat (length (tracks q))) m = (false, m).
Proof.
  intros Hq. unfold removeTrack. rewrite Hq.
  split; [|split; [|split; [|split]]].
  - destruct (Z.ltb_spec index 0),
      (Z.leb_spec (Z.of_nat (length (tracks q))) index);
      cbn; split; intros; first [lia | discriminate | reflexivity].
  - destruct (Z.ltb_spec index 0),
      (Z.leb_spec (Z.of_nat (length (tracks q))) index);
      cbn; intros; first [discriminate | reflexivity].
  - destruct (Z.ltb_spec index 0),
      (Z.leb_spec (Z.of_nat (length (tracks q))) index);
      cbn; intros; try discriminate.
    rewrite delete_take_drop. split; [reflexivity | split; [reflexivity |]].
    rewrite length_app, length_take, length_drop. lia.
  - destruct (Z.leb_spec (Z.of_nat (length (tracks q))) (-1)); reflexivity.
  - rewrite Z.leb_refl, orb_true_r. reflexivity.
Qed.

Lemma removeTrack_range_witness :
  (removeTrack "g1" 1 Demo.busy_manager).1 = true
  ∧ (removeTrack "g1" 1 Demo.busy_manager).2
    = Demo.manager_of
        (Demo.queue_of [Demo.trackB] (Some Demo.trackA) true false).
Proof.
  destruct (removeTrack_range "g1" 1 Demo.busy_manager Demo.busy_queue eq_refl)
    as (_ & _ & Hremoved & _).
  split; [reflexivity|].
  destruct (Hremoved eq_refl) as (-> & _). reflexivity.
Defined.

(** ** Adding a track to a guild without a queue *)

(** C10. When the guild has no queue and the query resolves to a track,
    [addTrack] returns that track and leaves the whole manager as it was: no
    queue is created. *)
Theorem addTrack_without_queue (dl : PlayDl) (g query : string)
    (r : Requester) (m : MusicManager) (t : Track) :
  queues m !! g = None →
  resolve (spotify m) dl query r = Ok t →
  addTrack dl g query r m = (Some t, m)
  ∧ getQueue g (addTrack dl g query r m).2 = None.
Proof.
  intros Hq Hr. unfold addTrack, getQueue. rewrite Hr, Hq. done.
Qed.

Lemma addTrack_without_queue_witness :
  addTrack Demo.dl_any "g2" "lofi beats" Demo.alice
    Demo.idle_manager
  = (Some (youtube_track (Demo.video_of "lofi beats") Demo.alice),
     Demo.idle_manager)
  ∧ getQueue "g2"
      (addTrack Demo.dl_any "g2" "lofi beats" Demo.alice Demo.idle_manager).2
    = None.
Proof.
  apply (addTrack_without_queue Demo.dl_any "g2" "lofi beats" Demo.alice
           Demo.idle_manager
           (youtube_track (Demo.video_of "lofi beats") Demo.alice));
    reflexivity.
Defined.

(** ** Completion of the current track *)

Lemma playNext_cons (g : string) (m : MusicManager) (q : Queue) (t : Track)
    (rest : list Track) :
  queues m !! g = Some q → tracks q = t :: rest →
  playNext g m
  = set_queues
      (<[g := set_currentTrack (Some t) (set_tracks rest q)]> (queues m)) m.
Proof. intros Hq Ht. unfold playNext. by rewrite Hq, Ht. Qed.

Lemma playNext_nil (g : string) (m : MusicManager) (q : Queue) :
  queues m !! g = Some q → tracks q = [] → playNext g m = m.
Proof. intros Hq Ht. unfold playNext. by rewrite Hq, Ht. Qed.

Lemma set_queues_twice (g : string) (q1 q2 : Queue) (m : MusicManager) :
  set_queues
    (<[g := q2]> (queues (set_queues (<[g := q1]> (queues m)) m)))
    (set_queues (<[g := q1]> (queues m)) m)
  = set_queues (<[g := q2]> (queues m)) m.
Proof. unfold set_queues; simpl. by rewrite insert_insert_eq. Qed.

(** The [Idle] listener with tracks pending: the flags are cleared and the
    head of the pending sequence becomes the current track. *)
Lemma onIdle_cons (g : string) (m : MusicManager) (q : Queue) (t : Track)
    (rest : list Track) :
  queues m !! g = Some q → tracks q = t :: rest →
  onIdle g m
  = Ok (set_queues
          (<[g := set_currentTrack (Some t)
                    (set_tracks rest
                       (set_isPaused false (set_isPlaying false q)))]>
             (queues m)) m).
Proof.
  intros Hq Ht. unfold onIdle. rewrite Hq. f_equal.
  erewrite playNext_cons; [|apply getQueue_set_queues|exact Ht].
  apply set_queues_twice.
Qed.

(** The [Idle] listener with nothing pending: the flags are cleared and
    [playNext] returns at once; the current track stays where it was. *)
Lemma onIdle_nil (g : string) (m : MusicManager) (q : Queue) :
  queues m !! g = Some q → tracks q = [] →
  onIdle g m
  = Ok (set_queues
          (<[g := set_isPaused false (set_isPlaying false q)]> (queues m)) m).
Proof.
  intros Hq Ht. unfold onIdle. rewrite Hq. f_equal.
  erewrite playNext_nil; [reflexivity|apply getQueue_set_queues|exact Ht].
Qed.




(** C1. A queue that plays [trackA] with nothing pending receives [skip()]
    and the completion signal. Both flags are cleared, but the current track
    is still [trackA]: [playNext] returns before it touches [currentTrack]. *)
Theorem completion_keeps_currentTrack :
  run [Skip "g1"; Emit "g1" Idle]
    (Demo.manager_of (Demo.queue_of [] (Some Demo.trackA) true false))
  = Ok (Demo.manager_of (Demo.queue_of [] (Some Demo.trackA) false false)).
Proof. reflexivity. Qed.

(** What follows from it: [addTrack] starts playback only when the queue is
    not playing and has no current track, so after the pending sequence has
    drained a new track stays pending and is not started. *)
Lemma addTrack_after_drain :
  addTrack Demo.dl_any "g1" "b" Demo.alice
    (Demo.manager_of (Demo.queue_of [] (Some Demo.trackA) false false))
  = (Some Demo.trackB,
     Demo.manager_of
       (Demo.queue_of [Demo.trackB] (Some Demo.trackA) false false)).
Proof. reflexivity. Qed.

(** [stop()] is the path that does clear the current track. *)
Lemma stop_clears_currentTrack (g : string) (m : MusicManager) (q : Queue) :
  is_Some (connections m !! g) → queues m !! g = Some q →
  stop g m
  = (true,
     set_queues
       (<[g := set_currentTrack None (set_tracks [] q)]> (queues m)) m).
Proof. intros [c Hc] Hq. unfold stop. by rewrite Hc, Hq. Qed.

(** ** Resolution of catalog references *)

Lemma prefix_app (p s : string) :
  String.prefix p s = true → ∃ rest, s = p +:+ rest.
Proof.
  revert s. induction p as [|a p IH]; intros s Hp.
  - by exists s.
  - destruct s as [|b s]; [discriminate|]. cbn in Hp.
    destruct (Ascii.ascii_dec a b) as [->|]; [|discriminate].
    destruct (IH s Hp) as [rest ->]. by exists rest.
Qed.

(** A catalog reference is never taken for a direct media reference. *)
Lemma isSpotifyUrl_not_YouTube (query : string) :
  isSpotifyUrl query = true → isYouTubeUrl query = false.
Proof.
  unfold isSpotifyUrl. intros [Hp|Hp]%orb_true_iff;
    apply prefix_app in Hp as [rest ->]; reflexivity.
Qed.

Lemma resolve_catalog (api : option SpotifyWebApi) (dl : PlayDl)
    (query : string) (r : Requester) :
  isSpotifyUrl query = true →
  resolve api dl query r = getSpotifyTrack api dl query r.
Proof.
  intros Hs. unfold resolve.
  by rewrite (isSpotifyUrl_not_YouTube query Hs), Hs.
Qed.

(** C3, as the specification has it, fails: without a Spotify client the
    catalog reference is not resolved, although a free-text search of the raw
    query would have found a track. *)
Lemma catalog_fallback_counterexample :
  resolve None Demo.dl_any Demo.spotify_url Demo.alice
  = Throw "Spotify not configured"
  ∧ searchYouTube Demo.dl_any Demo.spotify_url Demo.alice
    = Ok (youtube_track (Demo.video_of Demo.spotify_url) Demo.alice)
  ∧ ¬ catalog_fallback.
Proof.
  split; [reflexivity | split; [reflexivity |]].
  intros Hspec.
  specialize (Hspec None Demo.dl_any Demo.spotify_url Demo.alice eq_refl
                (or_introl eq_refl)).
  discriminate Hspec.
Qed.

(** C3, amended. When the catalog provider is unavailable, the resolution of
    a catalog reference throws, whatever the search provider would answer:
    [addTrack] returns no track and leaves the manager unchanged. *)
Theorem catalog_unavailable_fails (dl : PlayDl) (g query : string)
    (r : Requester) (m : MusicManager) :
  isSpotifyUrl query = true →
  catalog_unavailable (spotify m) query →
  (∃ e, resolve (spotify m) dl query r = Throw e)
  ∧ addTrack dl g query r m = (None, m).
Proof.
  intros Hs Hun.
  assert (∃ e, resolve (spotify m) dl query r = Throw e) as [e He].
  { rewrite (resolve_catalog _ _ _ _ Hs). unfold getSpotifyTrack.
    destruct Hun as [-> | (sp & id & e & -> & -> & He)].
    - by eexists.
    - cbn. rewrite He. by eexists. }
  split; [by exists e|]. unfold addTrack. by rewrite He.
Qed.

Lemma catalog_unavailable_fails_witness :
  (∃ e, resolve (spotify Demo.idle_manager) Demo.dl_any Demo.spotify_url
          Demo.alice = Throw e)
  ∧ addTrack Demo.dl_any "g1" Demo.spotify_url Demo.alice Demo.idle_manager
    = (None, Demo.idle_manager).
Proof.
  apply (catalog_unavailable_fails Demo.dl_any "g1" Demo.spotify_url
           Demo.alice Demo.idle_manager); [reflexivity | by left].
Defined.

(** The same with a Spotify client whose lookup is rejected. *)
Lemma catalog_lookup_rejected :
  addTrack Demo.dl_any "g1" Demo.spotify_url Demo.alice
    {| connections := connections Demo.idle_manager;
       queues := queues Demo.idle_manager;
       spotify := Some Demo.spotify_down |}
  = (None,
     {| connections := connections Demo.idle_manager;
        queues := queues Demo.idle_manager;
        spotify := Some Demo.spotify_down |}).
Proof. reflexivity. Qed.

(** ** Sequences of [addTrack] calls *)

Lemma addTrack_Throw (dl : PlayDl) (g query : string) (r : Requester)
    (m : MusicManager) (e : string) :
  resolve (spotify m) dl query r = Throw e →
  addTrack dl g query r m = (None, m).
Proof. intros He. unfold addTrack. by rewrite He. Qed.

Lemma addTrack_Ok (dl : PlayDl) (g query : string) (r : Requester)
    (m : MusicManager) (q : Queue) (t : Track) :
  queues m !! g = Some q →
  resolve (spotify m) dl query r = Ok t →
  addTrack dl g query r m
  = (Some t, set_queues (<[g := enqueue q t]> (queues m)) m).
Proof.
  intros Hq Ht. unfold addTrack, enqueue, nothing_playing.
  rewrite Ht, Hq. cbn [tracks isPlaying currentTrack set_tracks].
  destruct (negb (isPlaying q) && _) eqn:Hidle; [|reflexivity].
  f_equal. unfold playNext. rewrite getQueue_set_queues || idtac.
  cbn [queues set_queues]. rewrite lookup_insert_eq.
  cbn [tracks set_tracks].
  destruct (tracks q ++ [t]) as [|next rest] eqn:Happ.
  - by destruct (tracks q).
  - by rewrite insert_insert_eq.
Qed.

Lemma nothing_playing_set_tracks (ts : list Track) (q : Queue) :
  nothing_playing (set_tracks ts q) = nothing_playing q.
Proof. reflexivity. Qed.

Lemma nothing_playing_current (t : Track) (q : Queue) :
  nothing_playing (set_currentTrack (Some t) q) = false.
Proof. unfold nothing_playing. cbn. apply andb_false_r. Qed.

(** While something is playing or current, [enqueue] only appends. *)
Lemma enqueue_busy (q : Queue) (t : Track) :
  nothing_playing q = false → enqueue q t = set_tracks (tracks q ++ [t]) q.
Proof.
  intros Hb. unfold enqueue. by rewrite nothing_playing_set_tracks, Hb.
Qed.

Lemma foldl_enqueue_busy (ts : list Track) (q : Queue) :
  nothing_playing q = false →
  foldl enqueue q ts = set_tracks (tracks q ++ ts) q.
Proof.
  revert q. induction ts as [|t ts IH]; intros q Hb; cbn [foldl].
  - rewrite app_nil_r. by destruct q.
  - rewrite (enqueue_busy q t Hb), IH by exact Hb.
    cbn. by rewrite <- app_assoc.
Qed.

(** With nothing playing, [enqueue] starts the head of the pending
    sequence. *)
Lemma enqueue_idle (q : Queue) (t next : Track) (rest : list Track) :
  nothing_playing q = true → tracks q ++ [t] = next :: rest →
  enqueue q t = set_currentTrack (Some next) (set_tracks rest q).
Proof.
  intros Hi Happ. unfold enqueue.
  rewrite nothing_playing_set_tracks, Hi. cbn [tracks set_tracks].
  by rewrite Happ.
Qed.

Lemma addTracks_queue (g : string) (calls : list Call) (m : MusicManager)
    (q : Queue) :
  queues m !! g = Some q →
  addTracks g calls m
  = set_queues
      (<[g := foldl enqueue q (resolved (spotify m) calls)]> (queues m)) m.
Proof.
  revert m q. induction calls as [|c calls IH]; intros m q Hq.
  - symmetry. by apply set_queues_id.
  - unfold addTracks, resolved in *. cbn [foldl omap list_omap].
    destruct (resolve (spotify m) (call_dl c) (call_query c)
                (call_requester c)) as [t|e] eqn:Hr.
    + rewrite (addTrack_Ok _ _ _ _ _ _ _ Hq Hr). cbn [snd foldl].
      rewrite (IH _ (enqueue q t)) by apply getQueue_set_queues.
      apply set_queues_twice.
    + rewrite (addTrack_Throw _ _ _ _ _ _ Hr). cbn [snd]. by apply IH.
Qed.

(** C4, as the specification has it, fails: on a session with nothing
    playing, one successful [addTrack] leaves the pending sequence empty,
    because the track is started at once. *)
Lemma pending_counts_resolutions_counterexample :
  addTrack Demo.dl_any "g1" "a" Demo.alice Demo.idle_manager
  = (Some Demo.trackA,
     Demo.manager_of (Demo.queue_of [] (Some Demo.trackA) false false))
  ∧ ¬ pending_counts_resolutions.
Proof.
  split; [reflexivity|]. intros Hspec.
  specialize
    (Hspec "g1"
       [{| call_dl := Demo.dl_any; call_query := "a";
           call_requester := Demo.alice |}]
       Demo.idle_manager Demo.idle_queue
       (Demo.queue_of [] (Some Demo.trackA) false false) eq_refl eq_refl).
  discriminate Hspec.
Qed.

(** C4, amended. A failed resolution leaves the manager unchanged. A
    successful call appends its track to the tail of the pending sequence
    and, when the queue is not playing and has no current track, moves the
    head of the pending sequence to the current track at once. After a
    sequence of calls the pending sequence is therefore the old one followed
    by the resolved tracks, short of its head if that has been started; its
    length is the old length plus the number of successful resolutions, less
    one if a track has been started. *)
Theorem addTracks_pending (g : string) (calls : list Call) (m : MusicManager)
    (q : Queue) :
  queues m !! g = Some q →
  (∀ dl query r e,
     resolve (spotify m) dl query r = Throw e →
     addTrack dl g query r m = (None, m))
  ∧ ∃ q',
      addTracks g calls m = set_queues (<[g := q']> (queues m)) m
      ∧ (nothing_playing q = true → resolved (spotify m) calls ≠ [] →
         ∃ next rest,
           tracks q ++ resolved (spotify m) calls = next :: rest
           ∧ q' = set_currentTrack (Some next) (set_tracks rest q)
           ∧ (length (tracks q') + 1
              = length (tracks q) + length (resolved (spotify m) calls))%nat)
      ∧ (nothing_playing q = false ∨ resolved (spotify m) calls = [] →
         q' = set_tracks (tracks q ++ resolved (spotify m) calls) q
         ∧ length (tracks q')
           = (length (tracks q) + length (resolved (spotify m) calls))%nat).
Proof.
  intros Hq. split; [intros dl query r e; apply addTrack_Throw|].
  eexists. split; [by apply addTracks_queue|].
  set (succ := resolved (spotify m) calls). clearbody succ. split.
  - intros Hidle Hne. destruct succ as [|t ts]; [done|]. cbn [foldl].
    destruct (tracks q ++ [t]) as [|next rest] eqn:Happ;
      [by destruct (tracks q)|].
    rewrite (enqueue_idle q t next rest Hidle Happ).
    rewrite foldl_enqueue_busy by apply nothing_playing_current.
    exists next, (rest ++ ts).
    replace (tracks q ++ t :: ts) with ((tracks q ++ [t]) ++ ts)
      by (by rewrite <- app_assoc).
    rewrite Happ. repeat split. cbn.
    apply (f_equal length) in Happ. rewrite !length_app in *.
    cbn in *. lia.
  - intros [Hbusy | ->].
    + rewrite foldl_enqueue_busy by exact Hbusy. split; [reflexivity|].
      cbn. by rewrite length_app.
    + cbn. rewrite app_nil_r. split; [by destruct q | lia].
Qed.

Lemma addTracks_pending_witness :
  ∃ q',
    addTracks "g1"
      [{| call_dl := Demo.dl_any; call_query := "a";
          call_requester := Demo.alice |};
       {| call_dl := Demo.dl_none; call_query := "nothing";
          call_requester := Demo.alice |};
       {| call_dl := Demo.dl_any; call_query := "b";
          call_requester := Demo.alice |}]
      Demo.idle_manager
    = set_queues (<["g1" := q']> (queues Demo.idle_manager)) Demo.idle_manager
    ∧ q' = Demo.queue_of [Demo.trackB] (Some Demo.trackA) false false.
Proof.
  destruct
    (addTracks_pending "g1"
       [{| call_dl := Demo.dl_any; call_query := "a";
           call_requester := Demo.alice |};
        {| call_dl := Demo.dl_none; call_query := "nothing";
           call_requester := Demo.alice |};
        {| call_dl := Demo.dl_any; call_query := "b";
           call_requester := Demo.alice |}]
       Demo.idle_manager Demo.idle_queue eq_refl)
    as (_ & q' & Hrun & Hidle & _).
  exists q'. split; [exact Hrun|].
  destruct (Hidle eq_refl ltac:(discriminate)) as (next & rest & Happ & -> & _).
  injection Happ as <- <-. reflexivity.
Defined.

(** ** Joining a voice channel *)

Lemma addTrack_connections (dl : PlayDl) (g query : string) (r : Requester)
    (m : MusicManager) :
  connections (addTrack dl g query r m).2 = connections m.
Proof.
  unfold addTrack.
  destruct (resolve _ _ _ _) as [t|e]; [|reflexivity].
  destruct (queues m !! g) as [q|]; [|reflexivity].
  destruct (negb _ && _); [|reflexivity].
  unfold playNext. cbn [queues set_queues]. rewrite lookup_insert_eq.
  cbn [tracks set_tracks]. by destruct (tracks q ++ [t]).
Qed.

(** [joinChannel] has no check of its own: once the new connection is
    ready, the session of the guild is bound to the requested channel. *)
Lemma joinChannel_rebinds (voice : VoiceLib) (vc : VoiceChannel)
    (tc : option TextChannel) (m : MusicManager) :
  entersState_Ready voice
    (joinVoiceChannel voice (channel_id vc) (guild_id (guild vc))) = true →
  (joinChannel voice vc tc m).1 = true
  ∧ getConnection (guild_id (guild vc)) (joinChannel voice vc tc m).2
    = Some {| connection :=
                joinVoiceChannel voice (channel_id vc) (guild_id (guild vc));
              player := createAudioPlayer voice;
              voiceChannel := vc; textChannel := tc |}.
Proof.
  intros Hready. unfold joinChannel, getConnection. rewrite Hready.
  split; [reflexivity|]. cbn [snd queues set_connections].
  destruct (queues m !! guild_id (guild vc)); cbn; apply lookup_insert_eq.
Qed.

(** C6, read on [joinChannel], fails: a manager whose session is bound to
    channel [X] is asked to join channel [Y] of the same guild; the call
    succeeds and the session is bound to [Y]. *)
Lemma join_respects_binding_counterexample :
  (joinChannel (Demo.voice_ok 2) Demo.channelY None Demo.busy_manager).1 = true
  ∧ (voiceChannel <$>
       getConnection "g1"
         (joinChannel (Demo.voice_ok 2) Demo.channelY None
            Demo.busy_manager).2)
    = Some Demo.channelY
  ∧ ¬ join_respects_binding.
Proof.
  split; [reflexivity | split; [reflexivity |]]. intros Hspec.
  destruct (Hspec (Demo.voice_ok 2) Demo.channelY None Demo.busy_manager
              Demo.connX eq_refl) as [_ Hconflict].
  destruct Hconflict as [Hfail _]; [discriminate | discriminate Hfail].
Qed.

(** C6, amended. The binding is guarded by the [/play] command, the caller
    of [joinChannel]. When the guild has a connection on the member's
    channel, the command does not join: it goes on to [addTrack] with the
    connections as they were. When the guild has a connection on another
    channel, the command answers that the bot is connected to a different
    channel and leaves the manager unchanged. [joinChannel] itself, called
    with a connection that becomes ready, binds the guild to the channel it
    is given. *)
Theorem play_command_guards_join (voice : VoiceLib) (dl : PlayDl)
    (i : Interaction) (text : TextChannel) (m : MusicManager)
    (vc : VoiceChannel) (c : GuildConnection) :
  member_voice_channel i = Some vc →
  getConnection (interaction_guildId i) m = Some c →
  (channel_id (voiceChannel c) = channel_id vc →
   (handlePlayCommand voice dl i text m).2
   = (addTrack dl (interaction_guildId i) (option_query i) (user i) m).2
   ∧ connections (handlePlayCommand voice dl i text m).2 = connections m)
  ∧ (channel_id (voiceChannel c) ≠ channel_id vc →
     handlePlayCommand voice dl i text m = (DifferentVoiceChannel, m))
  ∧ (entersState_Ready voice
       (joinVoiceChannel voice (channel_id vc) (guild_id (guild vc))) = true →
     voiceChannel <$>
       getConnection (guild_id (guild vc))
         (joinChannel voice vc (Some text) m).2
     = Some vc).
Proof.
  intros Hvc Hc. unfold handlePlayCommand. rewrite Hvc, Hc.
  split; [|split].
  - intros Hsame. rewrite decide_False by (by intros ?).
    assert (∀ p : option Track * MusicManager,
              (let '(track, m0) := p in
               match track with
               | Some track =>
                   (TrackAdded track
                      match getQueue (interaction_guildId i) m0 with
                      | Some queue => length (tracks queue)
                      | None => 0%nat
                      end, m0)
               | None => (TrackNotAdded, m0)
               end).2 = p.2) as Hsnd
      by (by intros [[t|] m0]).
    rewrite Hsnd. split; [reflexivity | apply addTrack_connections].
  - intros Hdiff. by rewrite decide_True.
  - intros Hready.
    destruct (joinChannel_rebinds voice vc (Some text) m Hready) as [_ ->].
    reflexivity.
Qed.

Lemma play_command_guards_join_witness :
  handlePlayCommand (Demo.voice_ok 2) Demo.dl_any
    {| interaction_guildId := "g1"; option_query := "b";
       user := Demo.alice; member_voice_channel := Some Demo.channelY |}
    Demo.text1 Demo.busy_manager
  = (DifferentVoiceChannel, Demo.busy_manager).
Proof.
  apply (play_command_guards_join (Demo.voice_ok 2) Demo.dl_any
           {| interaction_guildId := "g1"; option_query := "b";
              user := Demo.alice; member_voice_channel := Some Demo.channelY |}
           Demo.text1 Demo.busy_manager Demo.channelY Demo.connX
           eq_refl eq_refl).
  discriminate.
Defined.

(** ** Shuffle *)

Lemma insert_Permutation_delete (a : list Track) (i : nat) (x y : Track) :
  a !! i = Some x → <[i := y]> a ≡ₚ y :: delete i a.
Proof.
  intros Hi. pose proof (lookup_lt_Some _ _ _ Hi) as Hlt.
  rewrite insert_take_drop by exact Hlt. rewrite delete_take_drop.
  symmetry. apply Permutation_middle.
Qed.

Lemma swap_Permutation (a : list Track) (i j : nat) : swap a i j ≡ₚ a.
Proof.
  unfold swap.
  destruct (a !! i) as [x|] eqn:Hi; [|reflexivity].
  destruct (a !! j) as [y|] eqn:Hj; [|reflexivity].
  destruct (decide (i = j)) as [->|Hne].
  - assert (x = y) as -> by congruence.
    rewrite list_insert_insert_eq. by rewrite list_insert_id.
  - assert (<[i := y]> a !! j = Some y) as Hj'
      by (by rewrite list_lookup_insert_ne).
    etrans; [apply (insert_Permutation_delete _ j y x Hj')|].
    etrans; [|symmetry; apply (delete_Permutation a i x Hi)].
    apply Permutation_cons; [reflexivity|].
    apply (Permutation_cons_inv (a := y)).
    etrans; [symmetry; apply (delete_Permutation _ j y Hj')|].
    apply (insert_Permutation_delete a i x y Hi).
Qed.

Lemma fisher_yates_Permutation (random : nat → Q) (n i : nat)
    (a : list Track) :
  fisher_yates random n i a ≡ₚ a.
Proof.
  revert n a. induction i as [|i IH]; intros n a; cbn [fisher_yates].
  - reflexivity.
  - rewrite IH. apply swap_Permutation.
Qed.

(** [Math.random()] lies in [[0,1)], so the index drawn for position [i] is
    at most [i]. *)
Lemma random_index_bound (r : Q) (i : nat) :
  (0 <= r)%Q → (r < 1)%Q → (random_index r i ≤ i)%nat.
Proof.
  intros H0 H1. unfold random_index.
  set (k := (Z.of_nat i + 1)%Z).
  assert (r * inject_Z k < inject_Z k)%Q as Hlt.
  { rewrite <- (Qmult_1_l (inject_Z k)) at 2.
    apply Qmult_lt_compat_r; [|exact H1].
    change 0%Q with (inject_Z 0). rewrite <- Zlt_Qlt. lia. }
  assert (Qfloor (r * inject_Z k) < k)%Z as Hfl.
  { rewrite Zlt_Qlt. eapply Qle_lt_trans; [apply Qfloor_le | exact Hlt]. }
  lia.
Qed.

(** Within the array, [swap] is the destructuring assignment of the
    source. *)
Lemma swap_in_range (a : list Track) (i j : nat) :
  (i < length a)%nat → (j < length a)%nat →
  ∃ x y, a !! i = Some x ∧ a !! j = Some y
         ∧ swap a i j = <[j := x]> (<[i := y]> a).
Proof.
  intros [x Hx]%lookup_lt_is_Some_2 [y Hy]%lookup_lt_is_Some_2.
  exists x, y. unfold swap. by rewrite Hx, Hy.
Qed.

Lemma length_swap (a : list Track) (i j : nat) :
  length (swap a i j) = length a.
Proof.
  unfold swap. destruct (a !! i), (a !! j); try reflexivity.
  by rewrite !length_insert.
Qed.

(** One [shuffle] call on a guild that has a queue. *)
Lemma shuffle_queue (random : nat → Q) (g : string) (m : MusicManager)
    (q : Queue) :
  queues m !! g = Some q →
  shuffle random g m
  = (true,
     set_queues
       (<[g := set_tracks
                 (if negb (Types.shuffle q) && (1 <? length (tracks q))%nat
                  then fisher_yates random 0 (length (tracks q) - 1) (tracks q)
                  else tracks q)
                 (set_shuffle (negb (Types.shuffle q)) q)]>
          (queues m)) m).
Proof.
  intros Hq. unfold shuffle. rewrite Hq. cbn [Types.shuffle set_shuffle tracks].
  destruct (negb (Types.shuffle q) && _); [reflexivity|].
  by destruct q.
Qed.

Lemma fisher_yates_in_range (random : nat → Q) (n i : nat) (a : list Track) :
  in_unit_interval random → (i < length a)%nat →
  swaps_in_range random n i a.
Proof.
  intros Hr. revert n a. induction i as [|i IH]; intros n a Hi; cbn; [done|].
  destruct (Hr n) as [H0 H1].
  split; [exact Hi | split; [by apply random_index_bound|]].
  apply IH. rewrite length_swap. lia.
Qed.

Lemma permute_in_range (random : nat → Q) (a : list Track) :
  in_unit_interval random → swaps_in_range random 0 (length a - 1) a.
Proof.
  intros Hr. destruct a as [|t ts]; [exact I|].
  apply fisher_yates_in_range; [exact Hr | cbn; lia].
Qed.

Lemma permute_Permutation (random : nat → Q) (a : list Track) :
  permute random a ≡ₚ a.
Proof.
  unfold permute. destruct (1 <? length a)%nat; [|reflexivity].
  apply fisher_yates_Permutation.
Qed.

Lemma shuffle_on (random : nat → Q) (g : string) (m : MusicManager)
    (q : Queue) :
  queues m !! g = Some q → Types.shuffle q = false →
  shuffle random g m
  = (true,
     set_queues
       (<[g := set_tracks (permute random (tracks q)) (set_shuffle true q)]>
          (queues m)) m).
Proof.
  intros Hq Hoff. rewrite (shuffle_queue random g m q Hq), Hoff. reflexivity.
Qed.

Lemma shuffle_off (random : nat → Q) (g : string) (m : MusicManager)
    (q : Queue) :
  queues m !! g = Some q → Types.shuffle q = true →
  shuffle random g m
  = (true, set_queues (<[g := set_shuffle false q]> (queues m)) m).
Proof.
  intros Hq Hon. rewrite (shuffle_queue random g m q Hq), Hon.
  cbn [negb andb]. by destruct q.
Qed.

(** C9. On a guild that has a queue, [shuffle] always flips the shuffle
    flag and changes nothing but the flag and the pending order. On a
    false-to-true edge the pending sequence is replaced by what the
    Fisher-Yates loop makes of it, a permutation of it (every swap within the
    array); on a true-to-false edge the pending order is unchanged. Toggling
    on, off and on again permutes a second time: the loop runs again on the
    order the first enabling left. *)
Theorem shuffle_flips_and_permutes (r1 r2 r3 : nat → Q) (g : string)
    (m : MusicManager) (q : Queue) :
  in_unit_interval r1 → in_unit_interval r3 →
  queues m !! g = Some q →
  (∃ q1,
     shuffle r1 g m = (true, set_queues (<[g := q1]> (queues m)) m)
     ∧ Types.shuffle q1 = negb (Types.shuffle q)
     ∧ q1 = set_tracks (tracks q1) (set_shuffle (negb (Types.shuffle q)) q)
     ∧ tracks q1 ≡ₚ tracks q
     ∧ (Types.shuffle q = false →
        tracks q1 = permute r1 (tracks q)
        ∧ swaps_in_range r1 0 (length (tracks q) - 1) (tracks q))
     ∧ (Types.shuffle q = true → tracks q1 = tracks q))
  ∧ (Types.shuffle q = false →
     ∃ q3,
       run [Shuffle r1 g; Shuffle r2 g; Shuffle r3 g] m
       = Ok (set_queues (<[g := q3]> (queues m)) m)
       ∧ Types.shuffle q3 = true
       ∧ tracks q3 = permute r3 (permute r1 (tracks q))
       ∧ swaps_in_range r3 0 (length (permute r1 (tracks q)) - 1)
           (permute r1 (tracks q))
       ∧ tracks q3 ≡ₚ tracks q).
Proof.
  intros Hr1 Hr3 Hq. split.
  - eexists. split; [apply (shuffle_queue r1 g m q Hq)|].
    cbn [Types.shuffle tracks set_tracks set_shuffle].
    split; [reflexivity | split; [reflexivity | split; [|split]]].
    + destruct (negb (Types.shuffle q) && _); [|reflexivity].
      apply fisher_yates_Permutation.
    + intros ->. split; [reflexivity | by apply permute_in_range].
    + by intros ->.
  - intros Hoff. eexists. split; [|split; [|split; [|split]]].
    + cbn [run step mbind outcome_bind].
      rewrite (shuffle_on r1 g m q Hq Hoff). cbn [snd].
      erewrite (shuffle_off r2); [|apply getQueue_set_queues|reflexivity].
      cbn [snd]. rewrite set_queues_twice.
      erewrite (shuffle_on r3); [|apply getQueue_set_queues|reflexivity].
      cbn [snd]. rewrite set_queues_twice. reflexivity.
    + reflexivity.
    + reflexivity.
    + by apply permute_in_range.
    + cbn [tracks set_tracks set_shuffle].
      etrans; apply permute_Permutation.
Qed.

Lemma shuffle_flips_and_permutes_witness :
  ∃ q3,
    run [Shuffle Demo.half "g1"; Shuffle Demo.half "g1";
         Shuffle Demo.half "g1"]
      (Demo.manager_of
         (Demo.queue_of [Demo.trackA; Demo.trackB; Demo.trackC]
            None true false))
    = Ok (set_queues
            (<["g1" := q3]>
               (queues
                  (Demo.manager_of
                     (Demo.queue_of [Demo.trackA; Demo.trackB; Demo.trackC]
                        None true false))))
            (Demo.manager_of
               (Demo.queue_of [Demo.trackA; Demo.trackB; Demo.trackC]
                  None true false)))
    ∧ Types.shuffle q3 = true
    ∧ tracks q3
      = permute Demo.half
          (permute Demo.half [Demo.trackA; Demo.trackB; Demo.trackC])
    ∧ swaps_in_range Demo.half 0
        (length (permute Demo.half [Demo.trackA; Demo.trackB; Demo.trackC])
         - 1)
        (permute Demo.half [Demo.trackA; Demo.trackB; Demo.trackC])
    ∧ tracks q3 ≡ₚ [Demo.trackA; Demo.trackB; Demo.trackC].
Proof.
  assert (in_unit_interval Demo.half) as Hhalf
    by (intros n; split; [discriminate | reflexivity]).
  apply (shuffle_flips_and_permutes Demo.half Demo.half Demo.half "g1"
           (Demo.manager_of
              (Demo.queue_of [Demo.trackA; Demo.trackB; Demo.trackC]
                 None true false))
           (Demo.queue_of [Demo.trackA; Demo.trackB; Demo.trackC]
              None true false) Hhalf Hhalf eq_refl).
  reflexivity.
Defined.

(** ** The playing and paused flags *)

Lemma flags_preserved_refl (m : MusicManager) : flags_preserved m m.
Proof. intros g q Hq. by exists q. Qed.

Lemma flags_preserved_trans (m1 m2 m3 : MusicManager) :
  flags_preserved m1 m2 → flags_preserved m2 m3 → flags_preserved m1 m3.
Proof.
  intros H12 H23 g q3 Hq3.
  destruct (H23 g q3 Hq3) as (q2 & Hq2 & Hpl & Hpa).
  destruct (H12 g q2 Hq2) as (q1 & Hq1 & Hpl' & Hpa').
  exists q1. split; [exact Hq1 | split; congruence].
Qed.

Lemma flags_preserved_insert (g : string) (q q' : Queue) (m : MusicManager) :
  queues m !! g = Some q →
  isPlaying q' = isPlaying q → isPaused q' = isPaused q →
  flags_preserved m (set_queues (<[g := q']> (queues m)) m).
Proof.
  intros Hq Hpl Hpa g' q'' Hq''. cbn [queues set_queues] in Hq''.
  destruct (decide (g = g')) as [<-|Hne].
  - rewrite lookup_insert_eq in Hq''. injection Hq'' as <-. by exists q.
  - rewrite lookup_insert_ne in Hq'' by exact Hne. by exists q''.
Qed.

Lemma flags_preserved_ok (st : gmap string AudioPlayerStatus)
    (m m' : MusicManager) :
  flags_preserved m m' → flags_ok st m → flags_ok st m'.
Proof.
  intros Hpres Hok g q' Hq'.
  destruct (Hpres g q' Hq') as (q & Hq & -> & ->). by apply Hok.
Qed.

Lemma playNext_flags (g : string) (m : MusicManager) :
  flags_preserved m (playNext g m).
Proof.
  unfold playNext. destruct (queues m !! g) as [q|] eqn:Hq;
    [|apply flags_preserved_refl].
  destruct (tracks q); [apply flags_preserved_refl|].
  by eapply flags_preserved_insert.
Qed.

Lemma addTrack_flags (dl : PlayDl) (g query : string) (r : Requester)
    (m : MusicManager) :
  flags_preserved m (addTrack dl g query r m).2.
Proof.
  unfold addTrack. destruct (resolve _ _ _ _) as [t|e];
    [|apply flags_preserved_refl].
  destruct (queues m !! g) as [q|] eqn:Hq; [|apply flags_preserved_refl].
  assert (flags_preserved m
            (set_queues (<[g := set_tracks (tracks q ++ [t]) q]> (queues m)) m))
    as Hpush by (by eapply flags_preserved_insert).
  destruct (negb _ && _); cbn [snd]; [|exact Hpush].
  eapply flags_preserved_trans; [exact Hpush | apply playNext_flags].
Qed.

Lemma stop_flags (g : string) (m : MusicManager) :
  flags_preserved m (stop g m).2.
Proof.
  unfold stop. destruct (connections m !! g);
    [|apply flags_preserved_refl].
  destruct (queues m !! g) as [q|] eqn:Hq; [|apply flags_preserved_refl].
  by eapply flags_preserved_insert.
Qed.

Lemma shuffle_flags (random : nat → Q) (g : string) (m : MusicManager) :
  flags_preserved m (shuffle random g m).2.
Proof.
  unfold shuffle. destruct (queues m !! g) as [q|] eqn:Hq;
    [|apply flags_preserved_refl].
  eapply flags_preserved_insert; [exact Hq | |];
    by destruct (Types.shuffle _ && _).
Qed.

Lemma setVolume_flags (g : string) (v : Z) (m : MusicManager) :
  flags_preserved m (setVolume g v m).2.
Proof.
  unfold setVolume. destruct (queues m !! g) as [q|] eqn:Hq;
    [|apply flags_preserved_refl].
  by eapply flags_preserved_insert.
Qed.

Lemma removeTrack_flags (g : string) (index : Z) (m : MusicManager) :
  flags_preserved m (removeTrack g index m).2.
Proof.
  unfold removeTrack. destruct (queues m !! g) as [q|] eqn:Hq;
    [|apply flags_preserved_refl].
  destruct (_ || _); [apply flags_preserved_refl|].
  by eapply flags_preserved_insert.
Qed.

Lemma disconnect_flags (g : string) (m : MusicManager) :
  flags_preserved m (disconnect g m).2.
Proof.
  unfold disconnect. destruct (connections m !! g);
    [|apply flags_preserved_refl].
  intros g' q' Hq'. cbn in Hq'.
  apply lookup_delete_Some in Hq' as [_ Hq']. by exists q'.
Qed.

Lemma cleanup_flags (g : option string) (m : MusicManager) :
  flags_preserved m (cleanup g m).
Proof.
  assert (∀ (l : list (string * GuildConnection)) m0,
            flags_preserved m0
              (foldl (λ m' kv, (disconnect kv.1 m').2) m0 l)) as Hall.
  { induction l as [|kv l IH]; intros m0; cbn [foldl].
    - apply flags_preserved_refl.
    - eapply flags_preserved_trans; [apply disconnect_flags | apply IH]. }
  unfold cleanup. destruct g as [g|]; [|apply Hall].
  destruct (decide (g = "")); [apply Hall | apply disconnect_flags].
Qed.

Lemma joinChannel_flags_ok (voice : VoiceLib) (vc : VoiceChannel)
    (tc : option TextChannel) (st : gmap string AudioPlayerStatus)
    (m : MusicManager) :
  flags_ok st m →
  flags_ok (observe (JoinChannel voice vc tc) st) (joinChannel voice vc tc m).2.
Proof.
  intros Hok. unfold observe, joinChannel.
  destruct (entersState_Ready _ _); cbn [snd]; [|exact Hok].
  cbn [queues set_connections].
  intros g q Hq.
  destruct (decide (guild_id (guild vc) = g)) as [<-|Hne].
  - rewrite lookup_insert_eq.
    destruct (queues m !! guild_id (guild vc)) as [q0|] eqn:Hq0.
    + cbn in Hq. rewrite Hq0 in Hq. injection Hq as <-.
      split; [by apply (Hok _ _ Hq0) | discriminate].
    + cbn in Hq. rewrite lookup_insert_eq in Hq. injection Hq as <-.
      split; discriminate.
  - rewrite lookup_insert_ne by exact Hne.
    destruct (queues m !! guild_id (guild vc)); cbn in Hq.
    + by apply Hok.
    + rewrite lookup_insert_ne in Hq by exact Hne. by apply Hok.
Qed.

Lemma flags_ok_emit (st : gmap string AudioPlayerStatus) (m : MusicManager)
    (g : string) (s : AudioPlayerStatus) (q q' : Queue) :
  flags_ok st m →
  queues m !! g = Some q →
  (isPaused q' = true → isPlaying q' = true) →
  (s = Playing → isPlaying q' = true) →
  flags_ok (<[g := s]> st) (set_queues (<[g := q']> (queues m)) m).
Proof.
  intros Hok Hq Hpa Hpl g' q'' Hq''. cbn [queues set_queues] in Hq''.
  destruct (decide (g = g')) as [<-|Hne].
  - rewrite lookup_insert_eq in Hq''. injection Hq'' as <-.
    rewrite lookup_insert_eq. split; [exact Hpa|].
    intros [= ->]. by apply Hpl.
  - rewrite lookup_insert_ne in Hq'' by exact Hne.
    rewrite lookup_insert_ne by exact Hne. by apply Hok.
Qed.

Lemma step_flags_ok (a : Action) (st : gmap string AudioPlayerStatus)
    (m m' : MusicManager) :
  permitted a st = true → step a m = Ok m' →
  flags_ok st m → flags_ok (observe a st) m'.
Proof.
  intros Hperm Hstep Hok.
  destruct a as [voice vc tc | dl g query r | dl g | g | g | g | g
                | random g | g v | g index | g | og | g s];
    cbn [step] in Hstep; try (injection Hstep as <-); cbn [observe].
  1: by apply joinChannel_flags_ok.
  1-11: eapply flags_preserved_ok;
    [solve [auto using flags_preserved_refl, addTrack_flags, stop_flags,
              shuffle_flags, setVolume_flags, removeTrack_flags,
              disconnect_flags, cleanup_flags]
    | exact Hok].
  destruct s; cbn [permitted] in Hperm.
  - (* Idle *)
    unfold onIdle in Hstep.
    destruct (queues m !! g) as [q|] eqn:Hq; [|discriminate].
    injection Hstep as <-.
    eapply flags_preserved_ok; [apply playNext_flags|].
    eapply flags_ok_emit; [exact Hok | exact Hq | discriminate | discriminate].
  - (* Buffering *)
    injection Hstep as <-. intros g' q Hq.
    split; [by apply (Hok _ _ Hq)|].
    destruct (decide (g = g')) as [<-|Hne].
    + rewrite lookup_insert_eq. discriminate.
    + rewrite lookup_insert_ne by exact Hne. by apply Hok.
  - (* Playing *)
    unfold onPlaying in Hstep.
    destruct (queues m !! g) as [q|] eqn:Hq; [|discriminate].
    injection Hstep as <-.
    eapply flags_ok_emit; [exact Hok | exact Hq | discriminate | reflexivity].
  - (* Paused *)
    unfold onPaused in Hstep.
    destruct (queues m !! g) as [q|] eqn:Hq; [|discriminate].
    injection Hstep as <-.
    apply bool_decide_eq_true in Hperm.
    eapply flags_ok_emit; [exact Hok | exact Hq | | discriminate].
    intros _. cbn. by apply (Hok _ _ Hq).
  - (* AutoPaused *)
    injection Hstep as <-. intros g' q Hq.
    split; [by apply (Hok _ _ Hq)|].
    destruct (decide (g = g')) as [<-|Hne].
    + rewrite lookup_insert_eq. discriminate.
    + rewrite lookup_insert_ne by exact Hne. by apply Hok.
Qed.

Lemma run_flags_ok (actions : list Action)
    (st : gmap string AudioPlayerStatus) (m m' : MusicManager) :
  player_protocol st actions = true → run actions m = Ok m' →
  flags_ok st m → ∃ st', flags_ok st' m'.
Proof.
  revert st m. induction actions as [|a actions IH]; intros st m Hp Hrun Hok.
  - injection Hrun as <-. by exists st.
  - cbn [player_protocol] in Hp. apply andb_true_iff in Hp as [Hperm Hp].
    cbn [run mbind outcome_bind] in Hrun.
    destruct (step a m) as [m1|e] eqn:Hstep; [|discriminate].
    eapply IH; [exact Hp | exact Hrun |].
    by eapply step_flags_ok.
Qed.

(** C2, as the specification has it, fails: a guild joins, requests a
    track, hears it start and pauses it; its queue is then both playing and
    paused. *)
Lemma flags_exclusive_counterexample :
  player_protocol ∅ Demo.pause_scenario = true
  ∧ run Demo.pause_scenario (new_MusicManager None)
    = Ok (Demo.manager_of (Demo.queue_of [] (Some Demo.trackA) true true))
  ∧ ¬ flags_exclusive.
Proof.
  split; [reflexivity | split; [reflexivity |]]. intros Hspec.
  apply (Hspec None Demo.pause_scenario
           (Demo.manager_of (Demo.queue_of [] (Some Demo.trackA) true true))
           "g1" (Demo.queue_of [] (Some Demo.trackA) true true));
    [reflexivity | reflexivity | reflexivity |].
  split; reflexivity.
Qed.

(** C2, amended. The [Paused] listener sets the paused flag and leaves the
    playing flag as it is, so a paused queue has both flags set; the
    [Playing] listener leaves the queue playing and not paused, the [Idle]
    listener leaves it neither. In every state that the manager reaches from
    its creation through its public operations and the listeners, with a
    player that reports [Paused] only after [Playing], a queue is never
    paused without being playing. *)
Theorem paused_implies_playing (api : option SpotifyWebApi)
    (actions : list Action) (m : MusicManager) (g : string) (q : Queue) :
  player_protocol ∅ actions = true →
  run actions (new_MusicManager api) = Ok m →
  queues m !! g = Some q →
  (isPaused q = true → isPlaying q = true)
  ∧ (∃ m1, onPlaying g m = Ok m1
           ∧ getQueue g m1 = Some (set_isPaused false (set_isPlaying true q)))
  ∧ (∃ m2, onPaused g m = Ok m2
           ∧ getQueue g m2 = Some (set_isPaused true q))
  ∧ (∃ m3 q3, onIdle g m = Ok m3 ∧ getQueue g m3 = Some q3
              ∧ isPlaying q3 = false ∧ isPaused q3 = false).
Proof.
  intros Hp Hrun Hq. split; [|split; [|split]].
  - destruct (run_flags_ok actions ∅ (new_MusicManager api) m Hp Hrun)
      as [st Hok]; [intros g' q' Hq'; cbn in Hq'; by rewrite lookup_empty in Hq'|].
    by apply (Hok g q Hq).
  - unfold onPlaying. rewrite Hq. eexists. split; [reflexivity|].
    apply getQueue_set_queues.
  - unfold onPaused. rewrite Hq. eexists. split; [reflexivity|].
    apply getQueue_set_queues.
  - destruct (tracks q) as [|t rest] eqn:Ht.
    + rewrite (onIdle_nil g m q Hq Ht). eexists _, _.
      split; [reflexivity | split; [apply getQueue_set_queues | done]].
    + rewrite (onIdle_cons g m q t rest Hq Ht). eexists _, _.
      split; [reflexivity | split; [apply getQueue_set_queues | done]].
Qed.

Lemma paused_implies_playing_witness :
  isPlaying (Demo.queue_of [] (Some Demo.trackA) true true) = true.
Proof.
  exact (proj1
           (paused_implies_playing None Demo.pause_scenario
              (Demo.manager_of
                 (Demo.queue_of [] (Some Demo.trackA) true true))
              "g1" (Demo.queue_of [] (Some Demo.trackA) true true)
              eq_refl eq_refl eq_refl)
           eq_refl).
Defined.

(** ** Sessions: a connection and a queue per guild *)

Lemma same_sessions_refl (m : MusicManager) : same_sessions m m.
Proof. by split. Qed.

Lemma same_sessions_trans (m1 m2 m3 : MusicManager) :
  same_sessions m1 m2 → same_sessions m2 m3 → same_sessions m1 m3.
Proof. intros [Hc Hd] [Hc' Hd']. split; congruence. Qed.

Lemma same_sessions_insert (g : string) (q q' : Queue) (m : MusicManager) :
  queues m !! g = Some q →
  same_sessions m (set_queues (<[g := q']> (queues m)) m).
Proof.
  intros Hq. split; [reflexivity|]. cbn [queues set_queues].
  apply dom_insert_lookup_L. by exists q.
Qed.

Lemma same_sessions_ok (m m' : MusicManager) :
  same_sessions m m' → sessions_ok m → sessions_ok m'.
Proof. unfold sessions_ok. intros [-> ->]. done. Qed.

Lemma playNext_sessions (g : string) (m : MusicManager) :
  same_sessions m (playNext g m).
Proof.
  unfold playNext. destruct (queues m !! g) as [q|] eqn:Hq;
    [|apply same_sessions_refl].
  destruct (tracks q); [apply same_sessions_refl|].
  by eapply same_sessions_insert.
Qed.

Lemma addTrack_sessions (dl : PlayDl) (g query : string) (r : Requester)
    (m : MusicManager) :
  same_sessions m (addTrack dl g query r m).2.
Proof.
  unfold addTrack. destruct (resolve _ _ _ _) as [t|e];
    [|apply same_sessions_refl].
  destruct (queues m !! g) as [q|] eqn:Hq; [|apply same_sessions_refl].
  assert (same_sessions m
            (set_queues (<[g := set_tracks (tracks q ++ [t]) q]> (queues m)) m))
    as Hpush by (by eapply same_sessions_insert).
  destruct (negb _ && _); cbn [snd]; [|exact Hpush].
  eapply same_sessions_trans; [exact Hpush | apply playNext_sessions].
Qed.

Lemma stop_sessions (g : string) (m : MusicManager) :
  same_sessions m (stop g m).2.
Proof.
  unfold stop. destruct (connections m !! g); [|apply same_sessions_refl].
  destruct (queues m !! g) as [q|] eqn:Hq; [|apply same_sessions_refl].
  by eapply same_sessions_insert.
Qed.

Lemma shuffle_sessions (random : nat → Q) (g : string) (m : MusicManager) :
  same_sessions m (shuffle random g m).2.
Proof.
  unfold shuffle. destruct (queues m !! g) as [q|] eqn:Hq;
    [|apply same_sessions_refl].
  by eapply same_sessions_insert.
Qed.

Lemma setVolume_sessions (g : string) (v : Z) (m : MusicManager) :
  same_sessions m (setVolume g v m).2.
Proof.
  unfold setVolume. destruct (queues m !! g) as [q|] eqn:Hq;
    [|apply same_sessions_refl].
  by eapply same_sessions_insert.
Qed.

Lemma removeTrack_sessions (g : string) (index : Z) (m : MusicManager) :
  same_sessions m (removeTrack g index m).2.
Proof.
  unfold removeTrack. destruct (queues m !! g) as [q|] eqn:Hq;
    [|apply same_sessions_refl].
  destruct (_ || _); [apply same_sessions_refl|].
  by eapply same_sessions_insert.
Qed.

Lemma listener_sessions (g : string) (s : AudioPlayerStatus)
    (m m' : MusicManager) :
  step (Emit g s) m = Ok m' → same_sessions m m'.
Proof.
  destruct s; cbn [step]; unfold onIdle, onPlaying, onPaused;
    try (intros [= <-]; apply same_sessions_refl);
    (destruct (queues m !! g) as [q|] eqn:Hq; [|discriminate]);
    intros [= <-].
  - eapply same_sessions_trans;
      [by eapply same_sessions_insert | apply playNext_sessions].
  - by eapply same_sessions_insert.
  - by eapply same_sessions_insert.
Qed.

Create HintDb sessions.
#[local] Hint Resolve same_sessions_refl addTrack_sessions stop_sessions
  shuffle_sessions setVolume_sessions removeTrack_sessions : sessions.

Lemma disconnect_sessions_ok (g : string) (m : MusicManager) :
  sessions_ok m → sessions_ok (disconnect g m).2.
Proof.
  unfold sessions_ok, disconnect. intros Hok.
  destruct (connections m !! g); [|exact Hok].
  cbn. by rewrite !dom_delete_L, Hok.
Qed.

Lemma cleanup_sessions_ok (g : option string) (m : MusicManager) :
  sessions_ok m → sessions_ok (cleanup g m).
Proof.
  assert (∀ (l : list (string * GuildConnection)) m0,
            sessions_ok m0 →
            sessions_ok (foldl (λ m' kv, (disconnect kv.1 m').2) m0 l))
    as Hall.
  { induction l as [|kv l IH]; intros m0 Hok; cbn [foldl]; [exact Hok|].
    by apply IH, disconnect_sessions_ok. }
  intros Hok. unfold cleanup. destruct g as [g|]; [|by apply Hall].
  destruct (decide (g = "")); [by apply Hall | by apply disconnect_sessions_ok].
Qed.

Lemma joinChannel_sessions_ok (voice : VoiceLib) (vc : VoiceChannel)
    (tc : option TextChannel) (m : MusicManager) :
  sessions_ok m → sessions_ok (joinChannel voice vc tc m).2.
Proof.
  unfold sessions_ok, joinChannel. intros Hok.
  destruct (entersState_Ready _ _); cbn [snd]; [|exact Hok].
  cbn [queues set_connections].
  destruct (queues m !! guild_id (guild vc)) as [q|] eqn:Hq; cbn.
  - rewrite dom_insert_L, Hok.
    apply subseteq_union_1_L, singleton_subseteq_l, elem_of_dom.
    by exists q.
  - by rewrite !dom_insert_L, Hok.
Qed.

Lemma step_sessions_ok (a : Action) (m m' : MusicManager) :
  step a m = Ok m' → sessions_ok m → sessions_ok m'.
Proof.
  intros Hstep Hok.
  destruct a as [voice vc tc | dl g query r | dl g | g | g | g | g
                | random g | g v | g index | g | og | g s];
    try (eapply same_sessions_ok;
         [eapply listener_sessions; exact Hstep | exact Hok]);
    cbn [step] in Hstep; injection Hstep as <-;
    auto using joinChannel_sessions_ok, disconnect_sessions_ok,
      cleanup_sessions_ok;
    eapply same_sessions_ok; eauto with sessions.
Qed.

Lemma run_sessions_ok (actions : list Action) (m m' : MusicManager) :
  run actions m = Ok m' → sessions_ok m → sessions_ok m'.
Proof.
  revert m. induction actions as [|a actions IH]; intros m Hrun Hok.
  - by injection Hrun as <-.
  - cbn [run mbind outcome_bind] in Hrun.
    destruct (step a m) as [m1|e] eqn:Hstep; [|discriminate].
    eapply IH; [exact Hrun | by eapply step_sessions_ok].
Qed.

(** In every state the manager reaches, a guild with a connection has a
    queue, so the listeners of its player find the queue they update. *)
Lemma listeners_find_queue (api : option SpotifyWebApi)
    (actions : list Action) (m : MusicManager) (g : string)
    (s : AudioPlayerStatus) :
  run actions (new_MusicManager api) = Ok m →
  is_Some (connections m !! g) →
  ∃ m', step (Emit g s) m = Ok m'.
Proof.
  intros Hrun Hc.
  assert (sessions_ok m) as Hok
    by (eapply run_sessions_ok; [exact Hrun | reflexivity]).
  assert (is_Some (queues m !! g)) as [q Hq]
    by (apply elem_of_dom; rewrite <- Hok; by apply elem_of_dom).
  destruct s; cbn [step]; unfold onIdle, onPlaying, onPaused;
    rewrite ?Hq; by eexists.
Qed.

(** After the [Idle] listener has advanced the queue, [play] hands the
    stream of the new current track to the player. *)
Lemma play_after_advance (dl : PlayDl) (g : string) (m m' : MusicManager)
    (q : Queue) (t : Track) (rest : list Track) :
  is_Some (connections m !! g) →
  queues m !! g = Some q → tracks q = t :: rest →
  onIdle g m = Ok m' →
  play dl g m' = stream dl (url t).
Proof.
  intros [c Hc] Hq Ht Hidle.
  rewrite (onIdle_cons g m q t rest Hq Ht) in Hidle. injection Hidle as <-.
  unfold play. cbn [connections queues set_queues]. rewrite Hc.
  by rewrite lookup_insert_eq.
Qed.

(** * Further properties of the manager *)

(** ** Stopping *)

(** X1. After [stop()] and the completion signal that the stopped player sends,
    the queue of the guild has nothing pending, no current track and both
    flags cleared, every other field as before; so the next track that is
    added is started at once. *)
Theorem stop_then_completion (dl : PlayDl) (g query : string) (r : Requester)
    (m : MusicManager) (q : Queue) (t : Track) :
  is_Some (connections m !! g) →
  queues m !! g = Some q →
  resolve (spotify m) dl query r = Ok t →
  let stopped :=
    set_isPaused false
      (set_isPlaying false (set_currentTrack None (set_tracks [] q))) in
  run [Stop g; Emit g Idle] m
  = Ok (set_queues (<[g := stopped]> (queues m)) m)
  ∧ run [Stop g; Emit g Idle; AddTrack dl g query r] m
    = Ok (set_queues (<[g := set_currentTrack (Some t) stopped]> (queues m)) m).
Proof.
  intros Hc Hq Hr stopped.
  cbn [run step mbind outcome_bind].
  rewrite (stop_clears_currentTrack g m q Hc Hq). cbn [snd].
  erewrite onIdle_nil; [|apply getQueue_set_queues|reflexivity].
  cbn [run step mbind outcome_bind].
  rewrite set_queues_twice. split; [reflexivity|].
  erewrite (addTrack_Ok dl g query r _ stopped t);
    [|apply getQueue_set_queues|exact Hr].
  cbn [snd]. rewrite set_queues_twice. reflexivity.
Qed.

Lemma stop_then_completion_witness :
  run [Stop "g1"; Emit "g1" Idle] Demo.busy_manager
  = Ok Demo.idle_manager
  ∧ run [Stop "g1"; Emit "g1" Idle; AddTrack Demo.dl_any "g1" "c" Demo.alice]
      Demo.busy_manager
    = Ok (Demo.manager_of (Demo.queue_of [] (Some Demo.trackC) false false)).
Proof.
  destruct (stop_then_completion Demo.dl_any "g1" "c" Demo.alice
              Demo.busy_manager Demo.busy_queue Demo.trackC
              (ex_intro _ Demo.connX eq_refl) eq_refl eq_refl) as [H1 H2].
  split; [rewrite H1 | rewrite H2]; reflexivity.
Defined.

(** ** Completion signals play the pending tracks in order *)

Lemma completions_step (k : nat) (g : string) (m : MusicManager) :
  run (completions (S k) g) m = (m' ← onIdle g m; run (completions k g) m').
Proof. reflexivity. Qed.

(** X2. After [n > 0] completion signals the pending sequence has lost its
    first [n] tracks, the current track is the last track taken from it (the
    old one when nothing was pending), and both flags are cleared. *)
Theorem completions_in_order (n : nat) (g : string) (m : MusicManager)
    (q : Queue) :
  queues m !! g = Some q →
  (0 < n)%nat →
  run (completions n g) m
  = Ok (set_queues
          (<[g := set_currentTrack
                    (match last (take n (tracks q)) with
                     | Some t => Some t
                     | None => currentTrack q
                     end)
                    (set_tracks (drop n (tracks q))
                       (set_isPaused false (set_isPlaying false q)))]>
             (queues m)) m).
Proof.
  intros Hq Hn. destruct n as [|n]; [lia|clear Hn].
  revert m q Hq. induction n as [|n IH]; intros m q Hq.
  - cbn [completions replicate run step mbind outcome_bind].
    destruct (tracks q) as [|t rest] eqn:Ht.
    + rewrite (onIdle_nil g m q Hq Ht).
      destruct q; cbn in Ht |- *; by subst.
    + rewrite (onIdle_cons g m q t rest Hq Ht). cbn. by rewrite drop_0.
  - rewrite completions_step.
    destruct (tracks q) as [|t rest] eqn:Ht.
    + rewrite (onIdle_nil g m q Hq Ht). cbn [mbind outcome_bind].
      rewrite (IH _ _ (getQueue_set_queues _ _ _)).
      rewrite set_queues_twice.
      destruct q; cbn in Ht |- *; by subst.
    + rewrite (onIdle_cons g m q t rest Hq Ht). cbn [mbind outcome_bind].
      rewrite (IH _ _ (getQueue_set_queues _ _ _)).
      rewrite set_queues_twice. cbn [tracks set_tracks set_currentTrack
        set_isPaused set_isPlaying currentTrack isPlaying isPaused volume
        loop Types.shuffle].
      do 3 f_equal. cbn [take drop].
      destruct rest as [|t' rest']; [reflexivity|].
      cbn [take]. change (last (t :: t' :: take n rest'))
        with (last (t' :: take n rest')).
      destruct (last (t' :: take n rest')) eqn:Hlast; [reflexivity|].
      by apply last_None in Hlast.
Qed.

Lemma completions_in_order_witness :
  run (completions 2 "g1") Demo.busy_manager
  = Ok (Demo.manager_of (Demo.queue_of [] (Some Demo.trackC) false false)).
Proof.
  rewrite (completions_in_order 2 "g1" Demo.busy_manager Demo.busy_queue
             eq_refl ltac:(lia)).
  reflexivity.
Defined.

(** ** Disconnecting *)

Lemma MusicManager_eta (m : MusicManager) :
  m = {| connections := connections m; queues := queues m;
         spotify := spotify m |}.
Proof. by destruct m. Qed.

(** X3. [disconnect] discards the connection and the queue of its guild and
    touches no other guild; a session joined afterwards starts from the
    fresh queue (pending empty, volume 100, shuffle off), whatever the
    discarded queue held. *)
Theorem disconnect_forgets (voice : VoiceLib) (vc : VoiceChannel)
    (tc : option TextChannel) (m : MusicManager) :
  is_Some (connections m !! guild_id (guild vc)) →
  entersState_Ready voice
    (joinVoiceChannel voice (channel_id vc) (guild_id (guild vc))) = true →
  (disconnect (guild_id (guild vc)) m).1 = true
  ∧ getConnection (guild_id (guild vc))
      (disconnect (guild_id (guild vc)) m).2 = None
  ∧ getQueue (guild_id (guild vc)) (disconnect (guild_id (guild vc)) m).2
    = None
  ∧ (∀ g', g' ≠ guild_id (guild vc) →
       getConnection g' (disconnect (guild_id (guild vc)) m).2
       = getConnection g' m
       ∧ getQueue g' (disconnect (guild_id (guild vc)) m).2 = getQueue g' m)
  ∧ ∃ m',
      run [Disconnect (guild_id (guild vc)); JoinChannel voice vc tc] m = Ok m'
      ∧ getQueue (guild_id (guild vc)) m' = Some fresh_queue.
Proof.
  intros [c Hc] Hready. unfold disconnect, getConnection, getQueue.
  rewrite Hc. cbn [fst snd connections queues].
  split; [reflexivity|]. split; [apply lookup_delete_eq|].
  split; [apply lookup_delete_eq|]. split.
  - intros g' Hne. by rewrite !lookup_delete_ne.
  - eexists. split.
    + cbn [run step mbind outcome_bind]. unfold disconnect. rewrite Hc.
      reflexivity.
    + unfold joinChannel. rewrite Hready. cbn [snd queues set_connections].
      rewrite lookup_delete_eq. cbn. apply lookup_insert_eq.
Qed.

Lemma disconnect_forgets_witness :
  ∃ m',
    run [Disconnect "g1"; JoinChannel (Demo.voice_ok 2) Demo.channelX None]
      Demo.busy_manager = Ok m'
    ∧ getQueue "g1" m' = Some fresh_queue.
Proof.
  apply (disconnect_forgets (Demo.voice_ok 2) Demo.channelX None
           Demo.busy_manager); [by exists Demo.connX | reflexivity].
Defined.

(** ** Cleaning up *)

Lemma foldl_disconnect (l : list (string * GuildConnection))
    (m : MusicManager) :
  (∀ g, g ∈ l.*1 → is_Some (connections m !! g) ∨ queues m !! g = None) →
  let m' := foldl (λ m' kv, (disconnect kv.1 m').2) m l in
  spotify m' = spotify m
  ∧ ∀ g,
      connections m' !! g
      = (if decide (g ∈ l.*1) then None else connections m !! g)
      ∧ queues m' !! g = (if decide (g ∈ l.*1) then None else queues m !! g).
Proof.
  revert m. induction l as [|[k c] l IH]; intros m Hl; cbn [foldl].
  - split; [reflexivity|]. intros g. rewrite !decide_False; [done|..];
      cbn; by intros ?%elem_of_nil.
  - cbn [fst]. set (m1 := (disconnect k m).2).
    assert (spotify m1 = spotify m
            ∧ connections m1 = delete k (connections m)
            ∧ (queues m1 !! k = None)
            ∧ ∀ g, g ≠ k → queues m1 !! g = queues m !! g)
      as (Hsp & Hcs & Hqk & Hqs).
    { subst m1. unfold disconnect.
      destruct (connections m !! k) as [c'|] eqn:Hk; cbn.
      - split; [reflexivity|]. split; [reflexivity|].
        split; [apply lookup_delete_eq|].
        intros g Hne. by apply lookup_delete_ne.
      - split; [reflexivity|]. split; [symmetry; by apply delete_id|].
        split; [|done].
        destruct (Hl k) as [[? ?]|?]; [cbn; left|congruence|done]. }
    destruct (IH m1) as [Hsp' Hlook].
    { intros g Hg. destruct (decide (g = k)) as [->|Hne]; [by right|].
      rewrite Hcs, lookup_delete_ne by congruence. rewrite Hqs by done.
      apply Hl. cbn. by right. }
    split; [congruence|]. intros g. destruct (Hlook g) as [-> ->].
    cbn [fmap list_fmap fst]. rewrite Hcs.
    destruct (decide (g = k)) as [->|Hne].
    + rewrite lookup_delete_eq, Hqk.
      destruct (decide (k ∈ k :: l.*1)) as [_|Hnin];
        [|exfalso; apply Hnin; left].
      by destruct (decide (k ∈ l.*1)).
    + rewrite lookup_delete_ne by congruence. rewrite Hqs by done.
      destruct (decide (g ∈ l.*1)) as [Hin|Hnin],
        (decide (g ∈ k :: l.*1)) as [Hin'|Hnin']; try done.
      * exfalso. apply Hnin'. by right.
      * exfalso. by apply elem_of_cons in Hin' as [?|?].
Qed.

Lemma run_spotify (actions : list Action) (m m' : MusicManager) :
  run actions m = Ok m' → spotify m' = spotify m.
Proof.
  assert (∀ (l : list (string * GuildConnection)) m0,
            spotify (foldl (λ m' kv, (disconnect kv.1 m').2) m0 l)
            = spotify m0) as Hfold.
  { induction l as [|kv l IH]; intros m0; cbn [foldl]; [done|].
    rewrite IH. unfold disconnect. by destruct (connections m0 !! kv.1). }
  revert m. induction actions as [|a actions IH]; intros m Hrun.
  - by injection Hrun as <-.
  - cbn [run mbind outcome_bind] in Hrun.
    destruct (step a m) as [m1|e] eqn:Hstep; [|discriminate].
    rewrite (IH _ Hrun). clear IH Hrun.
    destruct a as [voice vc tc | dl g query r | dl g | g | g | g | g
                  | random g | g v | g index | g | og | g s];
      cbn [step] in Hstep; try (injection Hstep as <-); try reflexivity.
    + unfold joinChannel. destruct (entersState_Ready _ _); [|done].
      cbn. by destruct (_ !! _).
    + unfold addTrack. destruct (resolve _ _ _ _); [|done].
      destruct (queues m !! g); [|done].
      destruct (_ && _); [|done]. unfold playNext. cbn.
      rewrite lookup_insert_eq. cbn. by destruct (_ ++ _).
    + unfold stop. by destruct (connections m !! g), (queues m !! g).
    + unfold shuffle. by destruct (queues m !! g).
    + unfold setVolume. by destruct (queues m !! g).
    + unfold removeTrack. destruct (queues m !! g); [|done].
      by destruct (_ || _).
    + unfold disconnect. by destruct (connections m !! g).
    + unfold cleanup. destruct og as [g|]; [|apply Hfold].
      destruct (decide _); [apply Hfold|].
      unfold disconnect. by destruct (connections m !! g).
    + destruct s; cbn in Hstep; try (by injection Hstep as <-);
        unfold onIdle, onPlaying, onPaused in Hstep;
        (destruct (queues m !! g) as [q|] eqn:Hq; [|discriminate]);
        injection Hstep as <-; [|done..].
      unfold playNext. cbn. rewrite lookup_insert_eq. cbn.
      by destruct (tracks q).
Qed.

(** X4. [cleanup()] at shutdown, in any state the manager has reached: every
    connection and every queue is discarded, which leaves the manager as it
    was created; [cleanup("")] does the same, the empty string counting as
    no argument. *)
Theorem cleanup_all (api : option SpotifyWebApi) (actions : list Action)
    (m : MusicManager) :
  run actions (new_MusicManager api) = Ok m →
  cleanup None m = new_MusicManager api
  ∧ cleanup (Some "") m = new_MusicManager api
  ∧ getActiveConnections (cleanup None m) = 0%nat
  ∧ getTotalTracks (cleanup None m) = 0%nat.
Proof.
  intros Hrun.
  assert (sessions_ok m) as Hok
    by (eapply run_sessions_ok; [exact Hrun | reflexivity]).
  assert (cleanup None m = new_MusicManager api) as Hclean.
  { unfold cleanup.
    destruct (foldl_disconnect (map_to_list (connections m)) m)
      as [Hsp Hlook].
    { intros g [[g' c] [-> Hin]]%list_elem_of_fmap. left.
      apply elem_of_map_to_list in Hin. by exists c. }
    rewrite (MusicManager_eta (foldl _ _ _)). unfold new_MusicManager.
    rewrite Hsp, (run_spotify _ _ _ Hrun). cbn [spotify new_MusicManager].
    assert (∀ g, is_Some (connections m !! g)
                 → g ∈ (map_to_list (connections m)).*1) as Hin.
    { intros g [c Hc]. apply list_elem_of_fmap. exists (g, c).
      split; [done|]. by apply elem_of_map_to_list. }
    f_equal; apply map_eq; intros g; rewrite lookup_empty;
      destruct (Hlook g) as [Hc Hq].
    - rewrite Hc. case_decide as Hg; [done|].
      destruct (connections m !! g) eqn:Hcg; [|done].
      exfalso. apply Hg, Hin. by eexists.
    - rewrite Hq. case_decide as Hg; [done|].
      destruct (queues m !! g) as [q|] eqn:Hqg; [|done].
      exfalso. apply Hg, Hin. apply elem_of_dom. rewrite Hok.
      apply elem_of_dom. by eexists. }
  split; [exact Hclean|]. split; [exact Hclean|]. rewrite Hclean.
  split; reflexivity.
Qed.

Lemma cleanup_all_witness :
  cleanup None (Demo.manager_of (Demo.queue_of [] (Some Demo.trackA) true true))
  = new_MusicManager None.
Proof.
  apply (cleanup_all None Demo.pause_scenario
           (Demo.manager_of (Demo.queue_of [] (Some Demo.trackA) true true))
           eq_refl).
Defined.

(** ** The statistics: active connections and total tracks *)

(** X5. [getActiveConnections] counts guilds, not joins: a successful
    [joinChannel] adds one for a guild that had no connection and leaves the
    count for a guild that had one; a successful [disconnect] takes one
    away. *)
Theorem active_connections_count (voice : VoiceLib) (vc : VoiceChannel)
    (tc : option TextChannel) (m : MusicManager) :
  entersState_Ready voice
    (joinVoiceChannel voice (channel_id vc) (guild_id (guild vc))) = true →
  getActiveConnections (joinChannel voice vc tc m).2
  = match connections m !! guild_id (guild vc) with
    | Some _ => getActiveConnections m
    | None => S (getActiveConnections m)
    end
  ∧ getActiveConnections
      (joinChannel voice vc tc (joinChannel voice vc tc m).2).2
    = getActiveConnections (joinChannel voice vc tc m).2
  ∧ S (getActiveConnections
         (disconnect (guild_id (guild vc)) (joinChannel voice vc tc m).2).2)
    = getActiveConnections (joinChannel voice vc tc m).2.
Proof.
  intros Hready.
  assert (∀ m0, connections (joinChannel voice vc tc m0).2
                = <[guild_id (guild vc) :=
                      {| connection :=
                           joinVoiceChannel voice (channel_id vc)
                             (guild_id (guild vc));
                         player := createAudioPlayer voice;
                         voiceChannel := vc; textChannel := tc |}]>
                    (connections m0)) as Hjoin.
  { intros m0. unfold joinChannel. rewrite Hready. cbn.
    by destruct (queues m0 !! guild_id (guild vc)). }
  unfold getActiveConnections. rewrite !Hjoin. split; [|split].
  - rewrite map_size_insert.
    destruct (connections m !! guild_id (guild vc)); reflexivity.
  - rewrite (map_size_insert _ _ (<[_:=_]> _)), lookup_insert_eq. reflexivity.
  - unfold disconnect. rewrite Hjoin, lookup_insert_eq. cbn [snd connections].
    rewrite delete_insert_eq, <- (insert_delete_eq (connections m)).
    by rewrite map_size_insert_None by apply lookup_delete_eq.
Qed.

Lemma active_connections_count_witness :
  getActiveConnections
    (joinChannel (Demo.voice_ok 2) Demo.channelY None Demo.busy_manager).2
  = getActiveConnections Demo.busy_manager.
Proof.
  destruct (active_connections_count (Demo.voice_ok 2) Demo.channelY None
              Demo.busy_manager eq_refl) as [-> _].
  reflexivity.
Defined.

Lemma total_tracks_fresh (g : string) (q : Queue) (qs : gmap string Queue) :
  qs !! g = None →
  map_fold (λ _ queue total, (total + length (tracks queue))%nat) 0%nat
    (<[g := q]> qs)
  = (map_fold (λ _ queue total, (total + length (tracks queue))%nat) 0%nat qs
     + length (tracks q))%nat.
Proof.
  intros Hg. rewrite map_fold_insert_L; [reflexivity| |exact Hg].
  intros. lia.
Qed.

(** Replacing the queue of a guild changes the total by the change of its
    pending length. *)
Lemma getTotalTracks_update (g : string) (q q' : Queue) (m : MusicManager) :
  queues m !! g = Some q →
  (getTotalTracks (set_queues (<[g := q']> (queues m)) m)
   + length (tracks q)
   = getTotalTracks m + length (tracks q'))%nat.
Proof.
  intros Hq. unfold getTotalTracks. cbn [queues set_queues].
  rewrite <- (insert_delete_eq (queues m) g q').
  rewrite <- (insert_delete_id (queues m) g q Hq) at 2.
  rewrite !total_tracks_fresh by apply lookup_delete_eq. lia.
Qed.

(** X6. [getTotalTracks] counts pending tracks only. Removing a pending track
    lowers it by one; a completion signal that starts the next pending track
    lowers it by one as well, the current track not being counted; [stop]
    takes the whole pending sequence of the guild off it. *)
Theorem total_tracks_pending (g : string) (index : Z) (m : MusicManager)
    (q : Queue) :
  queues m !! g = Some q →
  is_Some (connections m !! g) →
  0 ≤ index < Z.of_nat (length (tracks q)) →
  S (getTotalTracks (removeTrack g index m).2) = getTotalTracks m
  ∧ (∃ m', onIdle g m = Ok m' ∧ S (getTotalTracks m') = getTotalTracks m)
  ∧ (getTotalTracks (stop g m).2 + length (tracks q))%nat = getTotalTracks m.
Proof.
  intros Hq Hc Hi. split; [|split].
  - unfold removeTrack. rewrite Hq.
    destruct (Z.ltb_spec index 0), (Z.leb_spec (Z.of_nat (length (tracks q))) index);
      try lia. cbn [orb snd].
    pose proof (getTotalTracks_update g q
                  (set_tracks (delete (Z.to_nat index) (tracks q)) q) m Hq)
      as Hupd.
    cbn [tracks set_tracks] in Hupd.
    rewrite length_delete in Hupd by (apply lookup_lt_is_Some_2; lia).
    lia.
  - destruct (tracks q) as [|t rest] eqn:Ht; [cbn in Hi; lia|].
    eexists. split; [apply (onIdle_cons g m q t rest Hq Ht)|].
    pose proof (getTotalTracks_update g q
                  (set_currentTrack (Some t)
                     (set_tracks rest
                        (set_isPaused false (set_isPlaying false q)))) m Hq)
      as Hupd.
    cbn [tracks set_tracks set_currentTrack] in Hupd.
    rewrite Ht in Hupd. cbn in Hupd. lia.
  - rewrite (stop_clears_currentTrack g m q Hc Hq). cbn [snd].
    pose proof (getTotalTracks_update g q
                  (set_currentTrack None (set_tracks [] q)) m Hq) as Hupd.
    cbn in Hupd. lia.
Qed.

Lemma total_tracks_pending_witness :
  S (getTotalTracks (removeTrack "g1" 1 Demo.busy_manager).2)
  = getTotalTracks Demo.busy_manager.
Proof.
  apply (total_tracks_pending "g1" 1 Demo.busy_manager Demo.busy_queue
           eq_refl (ex_intro _ Demo.connX eq_refl)).
  cbn. lia.
Defined.

(** ** Resolution of queries *)

Lemma append_cons (c : ascii) (s r : string) :
  String c s +:+ r = String c (s +:+ r).
Proof. reflexivity. Qed.

Lemma prefix_append (p s : string) : String.prefix p (p +:+ s) = true.
Proof.
  induction p as [|c p IH]; [by destruct s|].
  rewrite append_cons. cbn [String.prefix].
  by destruct (Ascii.ascii_dec c c).
Qed.

Lemma take_alnum_app (id rest : string) :
  all_alnum id = true → starts_alnum rest = false →
  take_alnum (id +:+ rest) = id.
Proof.
  intros Hid Hrest. induction id as [|c id IH].
  - change ("" +:+ rest) with rest.
    destruct rest as [|c r]; [reflexivity|].
    cbn [take_alnum starts_alnum] in *. by rewrite Hrest.
  - rewrite append_cons. cbn [take_alnum all_alnum] in *.
    apply andb_true_iff in Hid as [-> Hid]. by rewrite IH.
Qed.

Lemma track_id_here_id (id rest : string) :
  id ≠ "" → all_alnum id = true → starts_alnum rest = false →
  track_id_here ("track/" +:+ id +:+ rest) = Some id.
Proof.
  intros Hne Hid Hrest. unfold track_id_here.
  change ("track/" +:+ id +:+ rest)
    with (String "t" (String "r" (String "a" (String "c" (String "k"
            (String "/" (id +:+ rest))))))).
  cbn [strip_prefix]. rewrite !decide_True by reflexivity.
  rewrite (take_alnum_app id rest Hid Hrest). by rewrite decide_False.
Qed.

Lemma track_id_here_ne (c : ascii) (s : string) :
  c ≠ "t"%char → track_id_here (String c s) = None.
Proof.
  intros Hc. unfold track_id_here. cbn [strip_prefix].
  rewrite decide_False; [reflexivity | congruence].
Qed.

Lemma track_id_here_t (c : ascii) (s : string) :
  c ≠ "r"%char → track_id_here (String "t" (String c s)) = None.
Proof.
  intros Hc. unfold track_id_here. cbn [strip_prefix].
  rewrite decide_True by reflexivity.
  rewrite decide_False; [reflexivity | congruence].
Qed.

Lemma extract_skip (c : ascii) (s : string) :
  track_id_here (String c s) = None →
  extractSpotifyTrackId (String c s) = extractSpotifyTrackId s.
Proof. intros Hnone. cbn [extractSpotifyTrackId]. by rewrite Hnone. Qed.

Lemma extract_here (s id : string) :
  track_id_here s = Some id → extractSpotifyTrackId s = Some id.
Proof. intros Hhere. destruct s; cbn [extractSpotifyTrackId]; by rewrite Hhere. Qed.

Lemma extractSpotifyTrackId_roundtrip_aux (id rest : string) :
  id ≠ "" → all_alnum id = true → starts_alnum rest = false →
  isSpotifyUrl ("https://open.spotify.com/track/" +:+ id +:+ rest) = true
  ∧ extractSpotifyTrackId ("https://open.spotify.com/track/" +:+ id +:+ rest)
    = Some id.
Proof.
  intros Hne Hid Hrest. split.
  - unfold isSpotifyUrl. rewrite prefix_append. apply orb_true_r.
  - pose proof (track_id_here_id id rest Hne Hid Hrest) as Hhere.
    unfold String.append; fold String.append.
    repeat (rewrite extract_skip
              by first [ apply track_id_here_ne; discriminate
                       | apply track_id_here_t; discriminate ]).
    by apply extract_here.
Qed.

(** X7. The id of a Spotify track URL is read back from the URL: for an
    id of letters and digits followed by nothing or by a character that is
    neither (as in [?si=...]), the URL, with [https] as with [http], is
    classified as a catalog reference, not as a YouTube URL, and
    [extractSpotifyTrackId] returns the id. *)
Theorem extractSpotifyTrackId_roundtrip (id rest : string) :
  id ≠ "" → all_alnum id = true → starts_alnum rest = false →
  isSpotifyUrl ("https://open.spotify.com/track/" +:+ id +:+ rest) = true
  ∧ isSpotifyUrl ("http://open.spotify.com/track/" +:+ id +:+ rest) = true
  ∧ isYouTubeUrl ("https://open.spotify.com/track/" +:+ id +:+ rest) = false
  ∧ isYouTubeUrl ("http://open.spotify.com/track/" +:+ id +:+ rest) = false
  ∧ extractSpotifyTrackId ("https://open.spotify.com/track/" +:+ id +:+ rest)
    = Some id
  ∧ extractSpotifyTrackId ("http://open.spotify.com/track/" +:+ id +:+ rest)
    = Some id.
Proof.
  intros Hne Hid Hrest.
  destruct (extractSpotifyTrackId_roundtrip_aux id rest Hne Hid Hrest)
    as [Hsp Hextract].
  assert (isSpotifyUrl ("http://open.spotify.com/track/" +:+ id +:+ rest)
          = true) as Hsp'
    by (unfold isSpotifyUrl; by rewrite prefix_append).
  split; [exact Hsp|]. split; [exact Hsp'|].
  split; [by apply isSpotifyUrl_not_YouTube|].
  split; [by apply isSpotifyUrl_not_YouTube|].
  split; [exact Hextract|].
  pose proof (track_id_here_id id rest Hne Hid Hrest) as Hhere.
  unfold String.append; fold String.append.
  repeat (rewrite extract_skip
            by first [ apply track_id_here_ne; discriminate
                     | apply track_id_here_t; discriminate ]).
  by apply extract_here.
Qed.

Lemma extractSpotifyTrackId_roundtrip_witness :
  isSpotifyUrl
    ("http://open.spotify.com/track/" +:+ "4uLU6hMCjMI75M1A2tKUQC"
     +:+ "?si=abc") = true
  ∧ isYouTubeUrl
      ("http://open.spotify.com/track/" +:+ "4uLU6hMCjMI75M1A2tKUQC"
       +:+ "?si=abc") = false
  ∧ extractSpotifyTrackId
      ("https://open.spotify.com/track/" +:+ "4uLU6hMCjMI75M1A2tKUQC"
       +:+ "?si=abc")
    = Some "4uLU6hMCjMI75M1A2tKUQC"
  ∧ extractSpotifyTrackId
      ("http://open.spotify.com/track/" +:+ "4uLU6hMCjMI75M1A2tKUQC"
       +:+ "?si=abc")
    = Some "4uLU6hMCjMI75M1A2tKUQC".
Proof.
  destruct (extractSpotifyTrackId_roundtrip "4uLU6hMCjMI75M1A2tKUQC"
              "?si=abc" ltac:(discriminate) eq_refl eq_refl)
    as (_ & Hsp & _ & Hyt & Hs & Hp).
  repeat split; assumption.
Defined.

(** X8. A catalog reference whose lookup succeeds is resolved through a search
    for "<first artist> <name>": the track plays the first hit of that
    search and carries the catalog's data (title "<artist> - <name>", the
    duration in whole seconds, the first cover), tagged [spotify]; without a
    hit, or when the search is rejected, the resolution fails. *)
Theorem resolve_catalog_reference (sp : SpotifyWebApi) (dl : PlayDl)
    (id rest : string) (r : Requester) (track : SpotifyTrack)
    (artist : string) (others : list string) :
  id ≠ "" → all_alnum id = true → starts_alnum rest = false →
  getTrack sp id = Ok track →
  artists track = artist :: others →
  resolve (Some sp) dl ("https://open.spotify.com/track/" +:+ id +:+ rest) r
  = match search dl (artist +:+ " " +:+ spotify_name track) with
    | Ok (video :: _) =>
        Ok {| track_id := video_id video;
              title := artist +:+ " - " +:+ spotify_name track;
              duration := duration_ms track `div` 1000;
              thumbnail := head (album_images track);
              url := video_url video;
              requester := r;
              source := spotify_source |}
    | Ok [] => Throw "No YouTube equivalent found"
    | Throw e => Throw e
    end.
Proof.
  intros Hne Hid Hrest Htrack Hartists.
  destruct (extractSpotifyTrackId_roundtrip_aux id rest Hne Hid Hrest)
    as (Hsp & Hextract).
  rewrite (resolve_catalog _ _ _ _ Hsp). unfold getSpotifyTrack.
  rewrite Hextract, Htrack. cbn [mbind outcome_bind]. rewrite Hartists.
  destruct (search dl _) as [[|video hits]|e]; reflexivity.
Qed.

Lemma resolve_catalog_reference_witness :
  resolve (Some Demo.spotify_up) Demo.dl_any
    ("https://open.spotify.com/track/" +:+ "4uLU6hMCjMI75M1A2tKUQC" +:+ "")
    Demo.alice
  = Ok {| track_id := "Rick Astley Never Gonna Give You Up";
          title := "Rick Astley - Never Gonna Give You Up";
          duration := 213;
          thumbnail := Some "https://i.scdn.co/image/1";
          url := "https://www.youtube.com/watch?v="
                 +:+ "Rick Astley Never Gonna Give You Up";
          requester := Demo.alice;
          source := spotify_source |}.
Proof.
  rewrite (resolve_catalog_reference Demo.spotify_up Demo.dl_any
             "4uLU6hMCjMI75M1A2tKUQC" "" Demo.alice
             {| artists := ["Rick Astley"; "Someone"];
                spotify_name := "Never Gonna Give You Up";
                duration_ms := 213573;
                album_images := ["https://i.scdn.co/image/1"] |}
             "Rick Astley" ["Someone"]
             ltac:(discriminate) eq_refl eq_refl eq_refl eq_refl).
  reflexivity.
Defined.

(** X9. Every query that is not a Spotify track URL, a YouTube URL as much as
    free text, is resolved by one search for the query text itself: the track
    is built from the first hit, whatever the Spotify client is, and the
    resolution fails when there is no hit or the search is rejected. *)
Theorem resolve_first_hit (api : option SpotifyWebApi) (dl : PlayDl)
    (query : string) (r : Requester) :
  isSpotifyUrl query = false →
  resolve api dl query r
  = match search dl query with
    | Ok (video :: _) => Ok (youtube_track video r)
    | Ok [] =>
        Throw (if isYouTubeUrl query then "No video found"
               else "No results found")
    | Throw e => Throw e
    end.
Proof.
  intros Hs. unfold resolve, getYouTubeTrack, searchYouTube. rewrite Hs.
  destruct (isYouTubeUrl query); cbn [mbind outcome_bind];
    destruct (search dl query) as [[|video hits]|e]; reflexivity.
Qed.

Lemma resolve_first_hit_witness :
  resolve None Demo.dl_any "https://youtu.be/abc" Demo.alice
  = Ok (youtube_track (Demo.video_of "https://youtu.be/abc") Demo.alice).
Proof.
  rewrite (resolve_first_hit None Demo.dl_any "https://youtu.be/abc"
             Demo.alice eq_refl).
  reflexivity.
Defined.

(** ** The commands and the player *)

(** X10. [/pause] and [/resume] follow the flags that the listeners keep: once
    the player reports [Playing], [/pause] is accepted and [/resume] is
    refused; once it then reports [Paused], [/pause] is refused as already
    paused and [/resume] is accepted; after a completion signal both are
    refused. *)
Theorem commands_follow_player (g : string) (m : MusicManager) (q : Queue) :
  is_Some (connections m !! g) →
  queues m !! g = Some q →
  ∃ m1 m2 m3,
    run [Emit g Playing] m = Ok m1
    ∧ handlePauseCommand g m1 = MusicPaused
    ∧ handleResumeCommand g m1 = NotPaused
    ∧ run [Emit g Playing; Emit g Paused] m = Ok m2
    ∧ handlePauseCommand g m2 = AlreadyPaused
    ∧ handleResumeCommand g m2 = MusicResumed
    ∧ run [Emit g Idle] m = Ok m3
    ∧ handlePauseCommand g m3 = NothingPlaying
    ∧ handleResumeCommand g m3 = NotPaused.
Proof.
  intros Hc Hq.
  assert (∀ q', pause g (set_queues (<[g := q']> (queues m)) m) = true)
    as Hpause by (intros q'; by apply bool_decide_eq_true).
  assert (∀ q', resume g (set_queues (<[g := q']> (queues m)) m) = true)
    as Hresume by (intros q'; by apply bool_decide_eq_true).
  assert (∀ q', handlePauseCommand g (set_queues (<[g := q']> (queues m)) m)
                = if negb (isPlaying q') then NothingPlaying
                  else if isPaused q' then AlreadyPaused else MusicPaused)
    as Hp.
  { intros q'. unfold handlePauseCommand.
    by rewrite getQueue_set_queues, Hpause. }
  assert (∀ q', handleResumeCommand g (set_queues (<[g := q']> (queues m)) m)
                = if negb (isPaused q') then NotPaused else MusicResumed)
    as Hr.
  { intros q'. unfold handleResumeCommand.
    by rewrite getQueue_set_queues, Hresume. }
  exists (set_queues
            (<[g := set_isPaused false (set_isPlaying true q)]> (queues m)) m),
    (set_queues
       (<[g := set_isPaused true
                 (set_isPaused false (set_isPlaying true q))]> (queues m)) m).
  assert (∃ q3, onIdle g m = Ok (set_queues (<[g := q3]> (queues m)) m)
                ∧ isPlaying q3 = false ∧ isPaused q3 = false)
    as (q3 & Hidle & Hpl & Hpa).
  { destruct (tracks q) as [|t rest] eqn:Ht.
    - rewrite (onIdle_nil g m q Hq Ht). by eexists.
    - rewrite (onIdle_cons g m q t rest Hq Ht). by eexists. }
  exists (set_queues (<[g := q3]> (queues m)) m).
  cbn [run step mbind outcome_bind].
  unfold onPlaying. rewrite Hq. cbn [mbind outcome_bind].
  unfold onPaused. cbn [queues set_queues]. rewrite lookup_insert_eq.
  rewrite insert_insert_eq, Hidle, !Hp, !Hr, Hpl, Hpa.
  repeat split.
Qed.

Lemma commands_follow_player_witness :
  ∃ m1 m2 m3,
    run [Emit "g1" Playing] Demo.busy_manager = Ok m1
    ∧ handlePauseCommand "g1" m1 = MusicPaused
    ∧ handleResumeCommand "g1" m1 = NotPaused
    ∧ run [Emit "g1" Playing; Emit "g1" Paused] Demo.busy_manager = Ok m2
    ∧ handlePauseCommand "g1" m2 = AlreadyPaused
    ∧ handleResumeCommand "g1" m2 = MusicResumed
    ∧ run [Emit "g1" Idle] Demo.busy_manager = Ok m3
    ∧ handlePauseCommand "g1" m3 = NothingPlaying
    ∧ handleResumeCommand "g1" m3 = NotPaused.
Proof.
  apply (commands_follow_player "g1" Demo.busy_manager Demo.busy_queue);
    [by exists Demo.connX | reflexivity].
Defined.

(** X11. In every state the manager reaches, [/skip], [/pause], [/resume],
    [/stop] and [/shuffle] never answer that the operation failed: the check
    each handler makes before it calls the manager is enough for the call to
    succeed. *)
Theorem commands_never_fail (api : option SpotifyWebApi)
    (actions : list Action) (m : MusicManager) (g : string)
    (random : nat → Q) :
  run actions (new_MusicManager api) = Ok m →
  handleSkipCommand g m ≠ CommandFailed
  ∧ handlePauseCommand g m ≠ CommandFailed
  ∧ handleResumeCommand g m ≠ CommandFailed
  ∧ (handleStopCommand g m).1 ≠ CommandFailed
  ∧ (handleShuffleCommand random g m).1 ≠ CommandFailed.
Proof.
  intros Hrun.
  assert (sessions_ok m) as Hok
    by (eapply run_sessions_ok; [exact Hrun | reflexivity]).
  assert (is_Some (connections m !! g) ↔ is_Some (queues m !! g)) as Hiff
    by (rewrite <- !elem_of_dom; by rewrite Hok).
  unfold handleSkipCommand, handlePauseCommand, handleResumeCommand,
    handleStopCommand, handleShuffleCommand, getConnection, getQueue,
    skip, pause, resume, stop.
  destruct (connections m !! g) as [c|] eqn:Hc;
    destruct (queues m !! g) as [q|] eqn:Hq;
    try (by destruct (proj1 Hiff ltac:(by eexists)));
    try (by destruct (proj2 Hiff ltac:(by eexists)));
    [|repeat split; discriminate].
  rewrite bool_decide_true by (by eexists). cbn [mbind option_bind].
  split; [by destruct (currentTrack q)|].
  split; [by destruct (isPlaying q), (isPaused q)|].
  split; [by destruct (isPaused q)|].
  split; [discriminate|].
  destruct (length (tracks q) <? 2)%nat; [discriminate|].
  rewrite (shuffle_queue random g m q Hq). discriminate.
Qed.

Lemma commands_never_fail_witness :
  handleSkipCommand "g1"
    (Demo.manager_of (Demo.queue_of [] (Some Demo.trackA) true true))
  ≠ CommandFailed.
Proof.
  apply (commands_never_fail None Demo.pause_scenario
           (Demo.manager_of (Demo.queue_of [] (Some Demo.trackA) true true))
           "g1" Demo.half eq_refl).
Defined.

(** X12. In every state the manager reaches with a player that keeps to its
    protocol, [/nowplaying] reports "Paused" exactly when the paused flag is
    set, while the status label of the dashboard, which tests the playing
    flag first, reads "Playing" for a paused queue and never "Paused". *)
Theorem status_labels (api : option SpotifyWebApi) (actions : list Action)
    (m : MusicManager) (g : string) (q : Queue) (t : Track) :
  player_protocol ∅ actions = true →
  run actions (new_MusicManager api) = Ok m →
  queues m !! g = Some q →
  currentTrack q = Some t →
  handleNowPlayingCommand g m
  = NowPlaying t
      (if isPaused q then StatusPaused
       else if isPlaying q then StatusPlaying else StatusStopped)
      (volume q)
  ∧ (isPaused q = true → dashboardStatus q = "Playing")
  ∧ dashboardStatus q ≠ "Paused".
Proof.
  intros Hp Hrun Hq Ht.
  destruct (run_flags_ok actions ∅ (new_MusicManager api) m Hp Hrun)
    as [st Hok];
    [intros g' q' Hq'; cbn in Hq'; by rewrite lookup_empty in Hq'|].
  destruct (Hok g q Hq) as [Hflags _].
  unfold handleNowPlayingCommand, getQueue, nowPlayingStatus, dashboardStatus.
  rewrite Hq, Ht.
  destruct (isPlaying q), (isPaused q); try (by specialize (Hflags eq_refl));
    repeat split; (discriminate || done).
Qed.

Lemma status_labels_witness :
  handleNowPlayingCommand "g1"
    (Demo.manager_of (Demo.queue_of [] (Some Demo.trackA) true true))
  = NowPlaying Demo.trackA StatusPaused 100
  ∧ dashboardStatus (Demo.queue_of [] (Some Demo.trackA) true true)
    = "Playing".
Proof.
  destruct (status_labels None Demo.pause_scenario
              (Demo.manager_of
                 (Demo.queue_of [] (Some Demo.trackA) true true))
              "g1" (Demo.queue_of [] (Some Demo.trackA) true true)
              Demo.trackA eq_refl eq_refl eq_refl eq_refl)
    as (Hnow & Hdash & _).
  split; [exact Hnow | exact (Hdash eq_refl)].
Defined.

(** X13. [/shuffle] refuses to act on fewer than two pending tracks and leaves
    the manager as it is, so it cannot switch shuffle off then either; the
    ['shuffle'] action of the dashboard has no such guard and flips the flag
    on any queue. With two pending tracks or more the command does what the
    manager's [shuffle] does and reports the new flag. *)
Theorem shuffle_command_guard (random : nat → Q) (g : string)
    (m : MusicManager) (q : Queue) :
  queues m !! g = Some q →
  ((length (tracks q) < 2)%nat →
   handleShuffleCommand random g m = (NeedTwoTracks, m)
   ∧ controlPlayer random g action_shuffle m
     = (true,
        set_queues (<[g := set_shuffle (negb (Types.shuffle q)) q]> (queues m))
          m))
  ∧ ((2 ≤ length (tracks q))%nat →
     handleShuffleCommand random g m
     = (ShuffleToggled (negb (Types.shuffle q)), (shuffle random g m).2)
     ∧ controlPlayer random g action_shuffle m = shuffle random g m).
Proof.
  intros Hq. unfold handleShuffleCommand, controlPlayer, getQueue.
  rewrite Hq. split; intros Hlen.
  - rewrite (proj2 (Nat.ltb_lt _ _) Hlen). split; [reflexivity|].
    rewrite (shuffle_queue random g m q Hq).
    replace (1 <? length (tracks q))%nat with false
      by (symmetry; apply Nat.ltb_ge; lia).
    rewrite andb_false_r. by destruct q.
  - rewrite (proj2 (Nat.ltb_ge _ _) Hlen). split; [|reflexivity].
    rewrite (shuffle_queue random g m q Hq).
    cbn [fst snd queues set_queues]. by rewrite lookup_insert_eq.
Qed.

Lemma shuffle_command_guard_witness :
  handleShuffleCommand Demo.half "g1" Demo.idle_manager
  = (NeedTwoTracks, Demo.idle_manager)
  ∧ controlPlayer Demo.half "g1" action_shuffle Demo.idle_manager
    = (true,
       set_queues
         (<["g1" := set_shuffle (negb (Types.shuffle Demo.idle_queue))
                      Demo.idle_queue]>
            (queues Demo.idle_manager)) Demo.idle_manager).
Proof.
  apply (shuffle_command_guard Demo.half "g1" Demo.idle_manager
           Demo.idle_queue eq_refl).
  cbn. lia.
Defined.

(** ** The volume through the front-ends *)


(** ** The first [/play] of a guild *)

(** X15. A member in a voice channel asks for a track in a guild that has no
    session. When the connection fails to become ready, the command answers
    that the join failed and leaves the manager unchanged. When it becomes
    ready, the guild gets a connection bound to the member's channel and a
    queue; if the query resolves, the track is started at once and reported
    at position 0; if it does not, the command answers that the track was not
    added, and the bot stays connected with an empty queue. *)
Theorem first_play (voice : VoiceLib) (dl : PlayDl) (i : Interaction)
    (text : TextChannel) (m : MusicManager) (vc : VoiceChannel) :
  member_voice_channel i = Some vc →
  guild_id (guild vc) = interaction_guildId i →
  connections m !! interaction_guildId i = None →
  queues m !! interaction_guildId i = None →
  let g := interaction_guildId i in
  let conn :=
    {| connection := joinVoiceChannel voice (channel_id vc) g;
       player := createAudioPlayer voice;
       voiceChannel := vc; textChannel := Some text |} in
  let joined (q : Queue) :=
    {| connections := <[g := conn]> (connections m);
       queues := <[g := q]> (queues m);
       spotify := spotify m |} in
  if entersState_Ready voice (joinVoiceChannel voice (channel_id vc) g)
  then
    match resolve (spotify m) dl (option_query i) (user i) with
    | Ok t =>
        handlePlayCommand voice dl i text m
        = (TrackAdded t 0, joined (set_currentTrack (Some t) fresh_queue))
    | Throw _ =>
        handlePlayCommand voice dl i text m
        = (TrackNotAdded, joined fresh_queue)
    end
  else handlePlayCommand voice dl i text m = (JoinFailed, m).
Proof.
  intros Hvc Hg Hc Hq g conn joined. subst g.
  unfold handlePlayCommand, getConnection. rewrite Hvc, Hc.
  unfold joinChannel. rewrite Hg.
  destruct (entersState_Ready _ _); [|reflexivity].
  cbn [queues set_connections]. rewrite Hq.
  unfold addTrack. cbn [spotify set_queues set_connections queues].
  destruct (resolve _ _ _ _) as [t|e]; [|reflexivity].
  rewrite lookup_insert_eq.
  cbn [isPlaying currentTrack set_tracks fresh_queue tracks negb andb app].
  rewrite bool_decide_false by (by intros [? ?]). cbn [negb].
  unfold playNext. cbn [queues set_queues]. rewrite lookup_insert_eq.
  cbn [tracks set_tracks]. unfold getQueue. cbn [queues set_queues].
  rewrite lookup_insert_eq, !insert_insert_eq. reflexivity.
Qed.

Lemma first_play_witness :
  handlePlayCommand (Demo.voice_ok 1) Demo.dl_any
    {| interaction_guildId := "g1"; option_query := "a";
       user := Demo.alice; member_voice_channel := Some Demo.channelX |}
    Demo.text1 (new_MusicManager None)
  = (TrackAdded Demo.trackA 0,
     Demo.manager_of (Demo.queue_of [] (Some Demo.trackA) false false)).
Proof.
  exact (first_play (Demo.voice_ok 1) Demo.dl_any
           {| interaction_guildId := "g1"; option_query := "a";
              user := Demo.alice; member_voice_channel := Some Demo.channelX |}
           Demo.text1 (new_MusicManager None) Demo.channelX
           eq_refl eq_refl eq_refl eq_refl).
Defined.

(** ** Formatting durations *)

Lemma padStart2_width (n : Z) :
  0 ≤ n < 60 → String.length (padStart2 (pretty n)) = 2%nat.
Proof.
  intros Hn.
  assert (Forall (λ k, String.length (padStart2 (pretty k)) = 2%nat)
            (seqZ 0 60)) as Hall
    by (apply (bool_decide_unpack _); by vm_compute).
  apply (proj1 (Forall_forall _ _) Hall). apply elem_of_seqZ. lia.
Qed.

(** X16. For a whole number of seconds from 0 to [MAX_SAFE_INTEGER],
    [formatDuration] prints "m:ss" under an hour and "h:mm:ss" from an hour
    on: the fields add up to the input, the minutes after the hours and the
    seconds are below 60 and always two characters wide. *)
Theorem formatDuration_fields (seconds : Z) :
  0 ≤ seconds ≤ MAX_SAFE_INTEGER →
  ∃ h mi s : Z,
    seconds = h * 3600 + mi * 60 + s
    ∧ 0 ≤ h ∧ 0 ≤ mi < 60 ∧ 0 ≤ s < 60
    ∧ String.length (padStart2 (pretty mi)) = 2%nat
    ∧ String.length (padStart2 (pretty s)) = 2%nat
    ∧ formatDuration seconds
      = (if bool_decide (0 < h)
         then pretty h +:+ ":" +:+ padStart2 (pretty mi) +:+ ":"
              +:+ padStart2 (pretty s)
         else pretty mi +:+ ":" +:+ padStart2 (pretty s)).
Proof.
  intros [Hs _].
  exists (seconds `div` 3600), ((seconds `rem` 3600) `div` 60),
    (seconds `rem` 60).
  rewrite !Z.rem_mod_nonneg by lia.
  assert (0 ≤ seconds `div` 3600) as Hh by (apply Z.div_pos; lia).
  assert (0 ≤ (seconds `mod` 3600) `div` 60 < 60) as Hmi
    by (pose proof (Z.mod_pos_bound seconds 3600 ltac:(lia));
        split; [apply Z.div_pos; lia | apply Z.div_lt_upper_bound; lia]).
  assert (0 ≤ seconds `mod` 60 < 60) as Hsec
    by (apply Z.mod_pos_bound; lia).
  split; [|split; [exact Hh | split; [exact Hmi | split; [exact Hsec|]]]].
  - clear Hh Hmi Hsec. Z.to_euclidean_division_equations. lia.
  - split; [by apply padStart2_width|]. split; [by apply padStart2_width|].
    unfold formatDuration. rewrite !Z.rem_mod_nonneg by lia.
    destruct (Z.ltb_spec 0 (seconds `div` 3600)).
    + by rewrite bool_decide_true.
    + by rewrite bool_decide_false by lia.
Qed.

Lemma formatDuration_fields_witness :
  ∃ h mi s : Z,
    3725 = h * 3600 + mi * 60 + s
    ∧ 0 ≤ h ∧ 0 ≤ mi < 60 ∧ 0 ≤ s < 60
    ∧ String.length (padStart2 (pretty mi)) = 2%nat
    ∧ String.length (padStart2 (pretty s)) = 2%nat
    ∧ formatDuration 3725
      = (if bool_decide (0 < h)
         then pretty h +:+ ":" +:+ padStart2 (pretty mi) +:+ ":"
              +:+ padStart2 (pretty s)
         else pretty mi +:+ ":" +:+ padStart2 (pretty s)).
Proof. apply (formatDuration_fields 3725). by vm_compute. Defined.

Example formatDuration_hour : formatDuration 3725 = "1:02:05".
Proof. by vm_compute. Qed.

Example formatDuration_live : formatDuration 0 = "0:00".
Proof. by vm_compute. Qed.

(** X17. For a whole number of milliseconds from 0 to [MAX_SAFE_INTEGER],
    [formatUptime] rounds down and never shows more than has elapsed: with
    days it prints days, hours and minutes, from an hour on hours and
    minutes, each within a minute of the input; under an hour minutes and
    seconds, within a second. *)
Theorem formatUptime_rounds_down (ms : Z) :
  0 ≤ ms ≤ MAX_SAFE_INTEGER →
  (∃ d h mi : Z,
     0 < d ∧ 0 ≤ h < 24 ∧ 0 ≤ mi < 60
     ∧ formatUptime ms
       = pretty d +:+ "d " +:+ pretty h +:+ "h " +:+ pretty mi +:+ "m"
     ∧ ((d * 24 + h) * 60 + mi) * 60000 ≤ ms
       < ((d * 24 + h) * 60 + mi + 1) * 60000)
  ∨ (∃ h mi : Z,
       0 < h < 24 ∧ 0 ≤ mi < 60
       ∧ formatUptime ms = pretty h +:+ "h " +:+ pretty mi +:+ "m"
       ∧ (h * 60 + mi) * 60000 ≤ ms < (h * 60 + mi + 1) * 60000)
  ∨ (∃ mi s : Z,
       0 ≤ mi < 60 ∧ 0 ≤ s < 60
       ∧ formatUptime ms = pretty mi +:+ "m " +:+ pretty s +:+ "s"
       ∧ (mi * 60 + s) * 1000 ≤ ms < (mi * 60 + s + 1) * 1000).
Proof.
  intros [Hms _]. unfold formatUptime.
  set (seconds := ms `div` 1000).
  set (minutes := seconds `div` 60).
  set (hours := minutes `div` 60).
  set (days := hours `div` 24).
  assert (0 ≤ seconds) as Hs by (apply Z.div_pos; lia).
  assert (0 ≤ minutes) as Hm by (apply Z.div_pos; lia).
  assert (0 ≤ hours) as Hh by (apply Z.div_pos; lia).
  rewrite !Z.rem_mod_nonneg by lia.
  pose proof (Z.div_mod ms 1000 ltac:(lia)) as E1.
  pose proof (Z.mod_pos_bound ms 1000 ltac:(lia)) as B1.
  pose proof (Z.div_mod seconds 60 ltac:(lia)) as E2.
  pose proof (Z.mod_pos_bound seconds 60 ltac:(lia)) as B2.
  pose proof (Z.div_mod minutes 60 ltac:(lia)) as E3.
  pose proof (Z.mod_pos_bound minutes 60 ltac:(lia)) as B3.
  pose proof (Z.div_mod hours 24 ltac:(lia)) as E4.
  pose proof (Z.mod_pos_bound hours 24 ltac:(lia)) as B4.
  fold seconds in E1. fold minutes in E2. fold hours in E3. fold days in E4.
  destruct (Z.ltb_spec 0 days) as [Hd|Hd].
  - left. exists days, (hours `mod` 24), (minutes `mod` 60).
    repeat split; lia.
  - destruct (Z.ltb_spec 0 hours) as [Hh'|Hh'].
    + right; left. exists hours, (minutes `mod` 60).
      assert (0 ≤ days) by (apply Z.div_pos; lia).
      repeat split; lia.
    + right; right. exists minutes, (seconds `mod` 60).
      repeat split; lia.
Qed.

Lemma formatUptime_rounds_down_witness :
  (∃ d h mi : Z,
     0 < d ∧ 0 ≤ h < 24 ∧ 0 ≤ mi < 60
     ∧ formatUptime 90061000
       = pretty d +:+ "d " +:+ pretty h +:+ "h " +:+ pretty mi +:+ "m"
     ∧ ((d * 24 + h) * 60 + mi) * 60000 ≤ 90061000
       < ((d * 24 + h) * 60 + mi + 1) * 60000)
  ∨ (∃ h mi : Z,
       0 < h < 24 ∧ 0 ≤ mi < 60
       ∧ formatUptime 90061000 = pretty h +:+ "h " +:+ pretty mi +:+ "m"
       ∧ (h * 60 + mi) * 60000 ≤ 90061000 < (h * 60 + mi + 1) * 60000)
  ∨ (∃ mi s : Z,
       0 ≤ mi < 60 ∧ 0 ≤ s < 60
       ∧ formatUptime 90061000 = pretty mi +:+ "m " +:+ pretty s +:+ "s"
       ∧ (mi * 60 + s) * 1000 ≤ 90061000 < (mi * 60 + s + 1) * 1000).
Proof. apply (formatUptime_rounds_down 90061000). by vm_compute. Defined.

Example formatUptime_day : formatUptime 90061000 = "1d 1h 1m".
Proof. by vm_compute. Qed.

(** ** Sessions *)

(** X18. In every state the manager reaches, a guild has a queue exactly when it
    has a connection, and the listeners of a connected guild's player always
    find the queue they update. *)
Theorem sessions_paired (api : option SpotifyWebApi) (actions : list Action)
    (m : MusicManager) (g : string) :
  run actions (new_MusicManager api) = Ok m →
  (is_Some (getConnection g m) ↔ is_Some (getQueue g m))
  ∧ (is_Some (getConnection g m) →
     ∀ s, ∃ m', step (Emit g s) m = Ok m').
Proof.
  intros Hrun.
  assert (sessions_ok m) as Hok
    by (eapply run_sessions_ok; [exact Hrun | reflexivity]).
  assert (is_Some (connections m !! g) ↔ is_Some (queues m !! g)) as Hiff
    by (rewrite <- !elem_of_dom; by rewrite Hok).
  split; [exact Hiff|]. intros Hc s.
  destruct (proj1 Hiff Hc) as [q Hq].
  destruct s; cbn [step]; unfold onIdle, onPlaying, onPaused;
    rewrite ?Hq; by eexists.
Qed.

Lemma sessions_paired_witness :
  is_Some (getConnection "g1"
             (Demo.manager_of (Demo.queue_of [] (Some Demo.trackA) true true)))
  ↔ is_Some (getQueue "g1"
               (Demo.manager_of
                  (Demo.queue_of [] (Some Demo.trackA) true true))).
Proof.
  apply (sessions_paired None Demo.pause_scenario
           (Demo.manager_of (Demo.queue_of [] (Some Demo.trackA) true true))
           "g1" eq_refl).
Defined.

(** X19. [joinChannel] creates a queue only for a guild that has none: joining
    again keeps the queue of the guild as it is, pending tracks and volume
    included, and only replaces the connection. A connection that does not
    become ready leaves the manager unchanged. *)
Theorem joinChannel_keeps_queue (voice : VoiceLib) (vc : VoiceChannel)
    (tc : option TextChannel) (m : MusicManager) :
  if entersState_Ready voice
       (joinVoiceChannel voice (channel_id vc) (guild_id (guild vc)))
  then
    (joinChannel voice vc tc m).1 = true
    ∧ getQueue (guild_id (guild vc)) (joinChannel voice vc tc m).2
      = Some (default fresh_queue (queues m !! guild_id (guild vc)))
    ∧ ∀ g', g' ≠ guild_id (guild vc) →
        getQueue g' (joinChannel voice vc tc m).2 = getQueue g' m
        ∧ getConnection g' (joinChannel voice vc tc m).2
          = getConnection g' m
  else joinChannel voice vc tc m = (false, m).
Proof.
  unfold joinChannel, getQueue, getConnection.
  destruct (entersState_Ready _ _); [|reflexivity].
  cbn [fst snd queues set_connections].
  destruct (queues m !! guild_id (guild vc)) as [q|] eqn:Hq;
    cbn [default queues connections set_queues set_connections].
  - split; [reflexivity|]. split; [exact Hq|].
    intros g' Hne. split; [reflexivity|]. by apply lookup_insert_ne.
  - split; [reflexivity|]. split; [apply lookup_insert_eq|].
    intros g' Hne. by rewrite !lookup_insert_ne.
Qed.

(** X20. [play] requests the stream of the current track and of nothing else: it
    fails without a connection, without a queue or without a current track,
    and after a completion signal has advanced the queue it requests the URL
    of the track that headed the pending sequence. *)
Theorem play_streams_current (dl : PlayDl) (g : string) (m : MusicManager) :
  (connections m !! g = None ∨ (queues m !! g ≫= currentTrack) = None →
   play dl g m = false)
  ∧ ∀ q t rest m',
      is_Some (connections m !! g) →
      queues m !! g = Some q → tracks q = t :: rest →
      onIdle g m = Ok m' →
      play dl g m' = stream dl (url t).
Proof.
  split.
  - unfold play. intros [-> | Hq]; [reflexivity|].
    destruct (connections m !! g); [|reflexivity].
    destruct (queues m !! g) as [q|]; [|reflexivity].
    cbn in Hq. by rewrite Hq.
  - intros q t rest m' Hc Hq Ht Hidle.
    by apply (play_after_advance dl g m m' q t rest).
Qed.

(** ** Guilds do not interfere *)

(** X21. An action about one guild leaves the queue and the connection of every
    other guild as they are. *)
Theorem guild_isolation (a : Action) (m m' : MusicManager) (g g' : string) :
  step a m = Ok m' →
  target a = Some g →
  g' ≠ g →
  getQueue g' m' = getQueue g' m
  ∧ getConnection g' m' = getConnection g' m.
Proof.
  intros Hstep Htarget Hne. unfold getQueue, getConnection.
  assert (∀ q, queues (set_queues (<[g := q]> (queues m)) m) !! g'
               = queues m !! g') as Hset
    by (intros q; cbn; by apply lookup_insert_ne).
  assert (∀ m0, queues (playNext g m0) !! g' = queues m0 !! g'
                ∧ connections (playNext g m0) = connections m0) as Hnext.
  { intros m0. unfold playNext. destruct (queues m0 !! g) as [q|]; [|done].
    destruct (tracks q); [done|]. cbn. by rewrite lookup_insert_ne. }
  assert (queues (disconnect g m).2 !! g' = queues m !! g'
          ∧ connections (disconnect g m).2 !! g' = connections m !! g')
    as Hdisc.
  { unfold disconnect. destruct (connections m !! g); [|done].
    cbn. by rewrite !lookup_delete_ne. }
  destruct a as [voice vc tc | dl g0 query r | dl g0 | g0 | g0 | g0 | g0
                | random g0 | g0 v | g0 index | g0 | og | g0 s];
    cbn [target] in Htarget; cbn [step] in Hstep.
  - injection Htarget as <-. injection Hstep as <-.
    unfold joinChannel. destruct (entersState_Ready _ _); [|done].
    cbn [snd queues set_connections].
    destruct (queues m !! guild_id (guild vc)); cbn;
      by rewrite ?lookup_insert_ne.
  - injection Htarget as ->. injection Hstep as <-. unfold addTrack.
    destruct (resolve _ _ _ _) as [t|e]; [|done].
    destruct (queues m !! g) as [q|]; [|done].
    destruct (_ && _); cbn [snd]; [|by rewrite Hset].
    destruct (Hnext (set_queues (<[g := set_tracks (tracks q ++ [t]) q]>
                                   (queues m)) m)) as [-> ->].
    by rewrite Hset.
  - by injection Hstep as <-.
  - by injection Hstep as <-.
  - by injection Hstep as <-.
  - by injection Hstep as <-.
  - injection Htarget as ->. injection Hstep as <-. unfold stop.
    destruct (connections m !! g); [|done].
    destruct (queues m !! g); [|done]. cbn [snd]. by rewrite Hset.
  - injection Htarget as ->. injection Hstep as <-. unfold shuffle.
    destruct (queues m !! g); [|done]. cbn [snd]. by rewrite Hset.
  - injection Htarget as ->. injection Hstep as <-. unfold setVolume.
    destruct (queues m !! g); [|done]. cbn [snd]. by rewrite Hset.
  - injection Htarget as ->. injection Hstep as <-. unfold removeTrack.
    destruct (queues m !! g); [|done].
    destruct (_ || _); [done|]. cbn [snd]. by rewrite Hset.
  - injection Htarget as ->. by injection Hstep as <-.
  - destruct og as [g0|]; [|discriminate]. cbn in Htarget.
    destruct (decide (g0 = "")) as [|Hg0]; [discriminate|].
    injection Htarget as ->. injection Hstep as <-.
    unfold cleanup. by rewrite decide_False.
  - injection Htarget as ->.
    destruct s; cbn in Hstep; try (by injection Hstep as <-);
      unfold onIdle, onPlaying, onPaused in Hstep;
      (destruct (queues m !! g) as [q|]; [|discriminate]);
      injection Hstep as <-; [|by rewrite Hset..].
    destruct (Hnext (set_queues
                       (<[g := set_isPaused false (set_isPlaying false q)]>
                          (queues m)) m)) as [-> ->].
    by rewrite Hset.
Qed.

Lemma guild_isolation_witness :
  getQueue "g2" (stop "g1" Demo.two_guilds).2
  = Some (Demo.queue_of [Demo.trackC] (Some Demo.trackB) true false)
  ∧ (voiceChannel <$> getConnection "g2" (stop "g1" Demo.two_guilds).2)
    = Some Demo.channelZ
  ∧ getQueue "g1" (stop "g1" Demo.two_guilds).2
    = Some (Demo.queue_of [] None true false).
Proof.
  destruct (guild_isolation (Stop "g1") Demo.two_guilds
              (stop "g1" Demo.two_guilds).2 "g1" "g2"
              eq_refl eq_refl ltac:(discriminate)) as [-> ->].
  repeat split.
Defined.

(** ** Instances of the statements above on the sample session *)


Lemma joinChannel_keeps_queue_witness :
  (joinChannel (Demo.voice_ok 2) Demo.channelX None Demo.busy_manager).1
  = true
  ∧ getQueue "g1"
      (joinChannel (Demo.voice_ok 2) Demo.channelX None Demo.busy_manager).2
    = Some Demo.busy_queue
  ∧ ∀ g', g' ≠ "g1" →
      getQueue g'
        (joinChannel (Demo.voice_ok 2) Demo.channelX None Demo.busy_manager).2
      = getQueue g' Demo.busy_manager
      ∧ getConnection g'
          (joinChannel (Demo.voice_ok 2) Demo.channelX None
             Demo.busy_manager).2
        = getConnection g' Demo.busy_manager.
Proof.
  exact (joinChannel_keeps_queue (Demo.voice_ok 2) Demo.channelX None
           Demo.busy_manager).
Defined.

Lemma play_streams_current_witness :
  play Demo.dl_any "g2" Demo.busy_manager = false
  ∧ play Demo.dl_any "g1"
      (Demo.manager_of (Demo.queue_of [Demo.trackC] (Some Demo.trackB)
                          false false))
    = stream Demo.dl_any (url Demo.trackB).
Proof.
  destruct (play_streams_current Demo.dl_any "g2" Demo.busy_manager)
    as [Hnone _].
  destruct (play_streams_current Demo.dl_any "g1" Demo.busy_manager)
    as [_ Hnext].
  split; [apply Hnone; by left|].
  apply (Hnext Demo.busy_queue Demo.trackB [Demo.trackC]);
    [by exists Demo.connX | reflexivity | reflexivity | reflexivity].
Defined.
